(** * NDEF TLV / message / record decoder (src/ndef.py)

    A shallow embedding of the decoder of [src/ndef.py] and the proofs of
    its specified properties.

    Modelling choices.
    - A Python [bytes] object is a [list byte]; a byte read with [[0]] or by
      iteration is the integer [byte_val b] in [0, 256).
    - Python [int] is [Z] (positions and lengths are unbounded and a length
      may become negative after [length -= 1]).
    - Python [str] is the list of its Unicode code points ([list Z]).
    - The buffer [ndef.data] is never assigned after construction and is a
      parameter of every function; the accumulator [ndef.output] is the
      state of the monad [M].  The state survives a raised exception, as the
      attribute of the Python object does.
    - A [while] loop is a [Fixpoint] on an iteration budget; running out of
      budget is the distinct outcome [OutOfFuel], which is proved never to
      occur for the budget [length data] used by [parse_ndef]. *)

From Stdlib Require Import ZArith List Lia Bool String Ascii.
From Stdlib Require Import Strings.Byte.
Import ListNotations.
Local Open Scope Z_scope.

(** ** Python values *)

Definition bytes := list byte.
Definition str := list Z.

Definition byte_val (b : byte) : Z := Z.of_N (Byte.to_N b).

Definition len {A} (l : list A) : Z := Z.of_nat (List.length l).

(** A string literal of the source, as code points. *)
Definition lit (s : string) : str :=
  map (fun c => Z.of_N (N_of_ascii c)) (list_ascii_of_string s).

(** A bytes literal [b"..."] of the source. *)
Definition blit (s : string) : bytes := list_byte_of_string s.

Definition nl : str := [10].

Fixpoint bytes_eqb (a b : bytes) : bool :=
  match a, b with
  | [], [] => true
  | x :: a', y :: b' => Byte.eqb x y && bytes_eqb a' b'
  | _, _ => false
  end.

(** [data[a:b]] with Python's index adjustment (negative indices count from
    the end, everything is clipped to [0, len]). *)
Definition slice (data : bytes) (a b : Z) : bytes :=
  let n := len data in
  let adj i := if i <? 0 then Z.max 0 (i + n) else Z.min i n in
  firstn (Z.to_nat (adj b - adj a)) (skipn (Z.to_nat (adj a)) data).

(** [int.from_bytes(bs, byteorder='big')]. *)
Definition from_bytes_big (bs : bytes) : Z :=
  fold_left (fun acc b => acc * 256 + byte_val b) bs 0.

(** [f"{b:02X}"]. *)
Definition hex_digit (d : Z) : Z := if d <? 10 then 48 + d else 55 + d.
Definition hex2 (b : byte) : str :=
  [hex_digit (byte_val b / 16); hex_digit (byte_val b mod 16)].

(** [sep.join(parts)]. *)
Fixpoint join (sep : str) (parts : list str) : str :=
  match parts with
  | [] => []
  | [p] => p
  | p :: rest => p ++ sep ++ join sep rest
  end.

(** [" ".join(f"{b:02X}" for b in chunk)]. *)
Definition hex_str (chunk : bytes) : str := join (lit " ") (map hex2 chunk).

(** [bs.decode('utf-8', errors='replace')]: every maximal ill-formed
    subsequence is replaced by one U+FFFD. *)
Definition REPL : Z := 0xFFFD.
Definition is_cont (b : Z) : bool := (0x80 <=? b) && (b <=? 0xBF).
(** Admissible second byte after the lead byte [b0] of a 3- or 4-byte form. *)
Definition second_ok (b0 b1 : Z) : bool :=
  if b0 =? 0xE0 then (0xA0 <=? b1) && (b1 <=? 0xBF)
  else if b0 =? 0xED then (0x80 <=? b1) && (b1 <=? 0x9F)
  else if b0 =? 0xF0 then (0x90 <=? b1) && (b1 <=? 0xBF)
  else if b0 =? 0xF4 then (0x80 <=? b1) && (b1 <=? 0x8F)
  else is_cont b1.

Fixpoint decode_utf8 (bs : bytes) : str :=
  match bs with
  | [] => []
  | c0 :: r0 =>
    let b0 := byte_val c0 in
    if b0 <? 0x80 then b0 :: decode_utf8 r0
    else if b0 <? 0xC2 then REPL :: decode_utf8 r0
    else if b0 <? 0xE0 then
      match r0 with
      | [] => [REPL]
      | c1 :: r1 =>
        let b1 := byte_val c1 in
        if is_cont b1
        then ((b0 - 0xC0) * 64 + (b1 - 0x80)) :: decode_utf8 r1
        else REPL :: decode_utf8 r0
      end
    else if b0 <? 0xF0 then
      match r0 with
      | [] => [REPL]
      | c1 :: r1 =>
        let b1 := byte_val c1 in
        if second_ok b0 b1 then
          match r1 with
          | [] => [REPL]
          | c2 :: r2 =>
            let b2 := byte_val c2 in
            if is_cont b2
            then ((b0 - 0xE0) * 4096 + (b1 - 0x80) * 64 + (b2 - 0x80))
                   :: decode_utf8 r2
            else REPL :: decode_utf8 r1
          end
        else REPL :: decode_utf8 r0
      end
    else if b0 <? 0xF5 then
      match r0 with
      | [] => [REPL]
      | c1 :: r1 =>
        let b1 := byte_val c1 in
        if second_ok b0 b1 then
          match r1 with
          | [] => [REPL]
          | c2 :: r2 =>
            let b2 := byte_val c2 in
            if is_cont b2 then
              match r2 with
              | [] => [REPL]
              | c3 :: r3 =>
                let b3 := byte_val c3 in
                if is_cont b3
                then ((b0 - 0xF0) * 262144 + (b1 - 0x80) * 4096
                      + (b2 - 0x80) * 64 + (b3 - 0x80)) :: decode_utf8 r3
                else REPL :: decode_utf8 r2
              end
            else REPL :: decode_utf8 r1
          end
        else REPL :: decode_utf8 r0
      end
    else REPL :: decode_utf8 r0
  end.

(** [s.strip()]: removes leading and trailing white space, the characters
    for which [str.isspace] holds. *)
Definition isspace (c : Z) : bool :=
  ((9 <=? c) && (c <=? 13)) || ((28 <=? c) && (c <=? 32))
  || (c =? 0x85) || (c =? 0xA0) || (c =? 0x1680)
  || ((0x2000 <=? c) && (c <=? 0x200A))
  || (c =? 0x2028) || (c =? 0x2029) || (c =? 0x202F) || (c =? 0x205F)
  || (c =? 0x3000).

Fixpoint lstrip (s : str) : str :=
  match s with
  | c :: s' => if isspace c then lstrip s' else s
  | [] => []
  end.

Definition strip (s : str) : str := rev (lstrip (rev (lstrip s))).

(** ** Exceptions, results and the output monad *)

Inductive exn : Type :=
| ValueError (msg : string)
| IndexError (msg : string).

(** [str(e)]. *)
Definition exn_str (e : exn) : str :=
  match e with ValueError m => lit m | IndexError m => lit m end.

Inductive result (A : Type) : Type :=
| Ok (a : A)
| Raise (e : exn)
| OutOfFuel.
Arguments Ok {A} a.
Arguments Raise {A} e.
Arguments OutOfFuel {A}.

(** A computation over the accumulator [ndef.output]. *)
Definition M (A : Type) : Type := str -> result A * str.

Definition ret {A} (a : A) : M A := fun out => (Ok a, out).

Definition bind {A B} (m : M A) (k : A -> M B) : M B :=
  fun out =>
    match m out with
    | (Ok a, out') => k a out'
    | (Raise e, out') => (Raise e, out')
    | (OutOfFuel, out') => (OutOfFuel, out')
    end.

Definition raise {A} (e : exn) : M A := fun out => (Raise e, out).

Definition out_of_fuel {A} : M A := fun out => (OutOfFuel, out).

(** A computation that does not touch the accumulator. *)
Definition liftR {A} (r : result A) : M A := fun out => (r, out).

(** [ndef.output += s]. *)
Definition emit (s : str) : M unit := fun out => (Ok tt, out ++ s).

Notation "x <- m ;; k" := (bind m (fun x => k))
  (at level 61, m at next level, right associativity).
Notation "m ;;; k" := (bind m (fun _ => k))
  (at level 61, right associativity).

(** ** TLV and TNF constants *)

Definition NdefTlvPadding : Z := 0x00.
Definition NdefTlvLockControl : Z := 0x01.
Definition NdefTlvMemoryControl : Z := 0x02.
Definition NdefTlvNdefMessage : Z := 0x03.
Definition NdefTlvProprietary : Z := 0xFD.
Definition NdefTlvTerminator : Z := 0xFE.

Definition NdefTnfEmpty : Z := 0x00.
Definition NdefTnfWellKnownType : Z := 0x01.
Definition NdefTnfMediaType : Z := 0x02.
Definition NdefTnfAbsoluteUri : Z := 0x03.
Definition NdefTnfExternalType : Z := 0x04.
Definition NdefTnfUnknown : Z := 0x05.
Definition NdefTnfUnchanged : Z := 0x06.
Definition NdefTnfReserved : Z := 0x07.

(** The dict [ndef_uri_prepends], in source order. *)
Definition ndef_uri_prepends : list (Z * string) :=
  [ (0x00, ""); (0x01, "http://www."); (0x02, "https://www.");
    (0x03, "http://"); (0x04, "https://"); (0x05, "tel:");
    (0x06, "mailto:") ]%string.

(** [d.get(key, default)]. *)
Fixpoint dict_get (d : list (Z * string)) (key : Z) (default : string)
  : string :=
  match d with
  | [] => default
  | (k, v) :: d' => if k =? key then v else dict_get d' key default
  end.

(** ** The class [Ndef] *)

Module Ndef.

Definition OutOfBounds : exn :=
  ValueError "Out-of-bounds access in NDEF data".

(** [Ndef.get]: the bounds-checked accessor. *)
Definition get (data : bytes) (pos length : Z) : result bytes :=
  if pos + length >? len data
  then Raise OutOfBounds
  else Ok (slice data pos (pos + length)).

(** [all(32 <= b < 127 or b in (9,10,13) for b in chunk)]. *)
Definition printable (chunk : bytes) : bool :=
  forallb (fun c => let b := byte_val c in
                    ((32 <=? b) && (b <? 127))
                    || (b =? 9) || (b =? 10) || (b =? 13)) chunk.

(** [Ndef.dump]. *)
Definition dump (data : bytes) (prefix : str) (pos length : Z)
           (force_hex : bool) : M unit :=
  chunk <- liftR (get data pos length) ;;
  let head := match prefix with [] => [] | _ => prefix ++ lit ": " end in
  if negb force_hex && printable chunk
  then emit (head ++ decode_utf8 chunk ++ nl)
  else emit (head ++ hex_str chunk ++ nl).

(** [Ndef.print_value]. *)
Definition print_value (prefix : str) (buf : bytes) (force_hex : bool)
  : M unit :=
  if negb force_hex && printable buf
  then emit (prefix ++ lit ": " ++ decode_utf8 buf ++ nl)
  else emit (prefix ++ lit ": " ++ hex_str buf ++ nl).

End Ndef.

(** [chunk[0]] on a bytes object. *)
Definition index0 (chunk : bytes) : result Z :=
  match chunk with
  | [] => Raise (IndexError "index out of range")
  | b :: _ => Ok (byte_val b)
  end.

(** [ndef.get(pos, 1)[0]]. *)
Definition get_byte (data : bytes) (pos : Z) : M Z :=
  chunk <- liftR (Ndef.get data pos 1) ;;
  liftR (index0 chunk).

(** ** Parsing functions for specific record types *)

Definition parse_ndef_uri (data : bytes) (pos length : Z) : M unit :=
  prepend_type <- get_byte data pos ;;
  let pos := pos + 1 in
  let length := length - 1 in
  let prepend := dict_get ndef_uri_prepends prepend_type "" in
  chunk <- liftR (Ndef.get data pos length) ;;
  let uri_payload := decode_utf8 chunk in
  emit (lit "URI" ++ nl ++ lit prepend ++ uri_payload ++ nl).

Definition parse_ndef_text (data : bytes) (pos length : Z) : M unit :=
  lang_len <- get_byte data pos ;;
  let pos := pos + 1 in
  let length := length - 1 in
  lang <- liftR (Ndef.get data pos lang_len) ;;
  let language := decode_utf8 lang in
  let pos := pos + lang_len in
  let length := length - lang_len in
  chunk <- liftR (Ndef.get data pos length) ;;
  let text_payload := decode_utf8 chunk in
  emit (lit "Text" ++ nl ++ text_payload ++ nl).

Definition parse_ndef_bt (data : bytes) (pos length : Z) : M unit :=
  bt_mac <- liftR (Ndef.get data (pos + 2) (length - 2)) ;;
  emit (lit "BT MAC" ++ nl ++ hex_str bt_mac ++ nl).

Definition parse_ndef_vcard (data : bytes) (pos length : Z) : M unit :=
  chunk <- liftR (Ndef.get data pos length) ;;
  let text := decode_utf8 chunk in
  emit (lit "Contact" ++ nl ++ text ++ nl).

Definition parse_ndef_wifi (data : bytes) (pos length : Z) : M unit :=
  chunk <- liftR (Ndef.get data pos length) ;;
  emit (lit "WiFi" ++ nl ++ hex_str chunk ++ nl).

(** ** Record and message parsing *)

Definition Chunked : exn := ValueError "Chunked records not supported".

(** Lines 140-158 of the source: dispatch on TNF and type. *)
Definition dispatch (data : bytes) (tnf : Z) (type_field : bytes)
           (pos payload_len : Z) : M unit :=
  if tnf =? NdefTnfWellKnownType then
    if bytes_eqb type_field (blit "U") then
      parse_ndef_uri data pos payload_len
    else if bytes_eqb type_field (blit "T") then
      parse_ndef_text data pos payload_len
    else Ndef.dump data (lit "Unknown Well-known") pos payload_len false
  else if tnf =? NdefTnfMediaType then
    if bytes_eqb type_field (blit "application/vnd.bluetooth.ep.oob") then
      parse_ndef_bt data pos payload_len
    else if bytes_eqb type_field (blit "text/vcard") then
      parse_ndef_vcard data pos payload_len
    else if bytes_eqb type_field (blit "application/vnd.wfa.wsc") then
      parse_ndef_wifi data pos payload_len
    else Ndef.dump data (lit "Unknown Media") pos payload_len false
  else Ndef.dump data (lit "Unsupported TNF") pos payload_len false.

Definition parse_ndef_record (data : bytes) (pos message_num : Z) : M Z :=
  flags <- get_byte data pos ;;
  let pos := pos + 1 in
  let mb := Z.land (Z.shiftr flags 7) 0x1 in
  let me := Z.land (Z.shiftr flags 6) 0x1 in
  let cf := Z.land (Z.shiftr flags 5) 0x1 in
  let sr := Z.land (Z.shiftr flags 4) 0x1 in
  let il := Z.land (Z.shiftr flags 3) 0x1 in
  let tnf := Z.land flags 0x07 in
  if negb (cf =? 0) then raise Chunked else
  type_len <- get_byte data pos ;;
  let pos := pos + 1 in
  pl <- (if negb (sr =? 0)
         then (payload_len <- get_byte data pos ;;
               ret (payload_len, pos + 1))
         else (v <- liftR (Ndef.get data pos 4) ;;
               ret (from_bytes_big v, pos + 4))) ;;
  let '(payload_len, pos) := pl in
  il' <- (if negb (il =? 0)
          then (id_len <- get_byte data pos ;; ret (id_len, pos + 1))
          else ret (0, pos)) ;;
  let '(id_len, pos) := il' in
  type_field <- liftR (Ndef.get data pos type_len) ;;
  let pos := pos + type_len in
  let pos := pos + id_len in
  dispatch data tnf type_field pos payload_len ;;;
  let pos := pos + payload_len in
  ret pos.

(** The loop of [parse_ndef_message]; [fuel] bounds the iterations. *)
Fixpoint message_loop (fuel : nat) (data : bytes) (end_ pos message_num : Z)
  : M Z :=
  if pos <? end_ then
    match fuel with
    | O => out_of_fuel
    | S fuel' =>
      pos' <- parse_ndef_record data pos message_num ;;
      message_loop fuel' data end_ pos' message_num
    end
  else ret pos.

Definition parse_ndef_message (fuel : nat) (data : bytes)
           (pos length message_num : Z) : M Z :=
  let end_ := pos + length in
  message_loop fuel data end_ pos message_num.

(** Lines 181-187 of the source: the TLV length field, 1 or 3 bytes.
    Returns [(tlv_len, pos)]. *)
Definition tlv_length (data : bytes) (pos : Z) : M (Z * Z) :=
  len_type <- get_byte data pos ;;
  let pos := pos + 1 in
  if len_type <? 0xFF then ret (len_type, pos)
  else v <- liftR (Ndef.get data pos 2) ;;
       ret (from_bytes_big v, pos + 2).

(** How one iteration of the loop of [parse_ndef_tlv] ends: at the loop
    head again, or with a [return]. *)
Inductive ctl : Type :=
| Continue (pos message_count : Z)
| Return (value : Z).

(** The body of the loop of [parse_ndef_tlv] (lines 173-194). *)
Definition tlv_step (mfuel : nat) (data : bytes) (pos message_count : Z)
  : M ctl :=
  tlv_type <- get_byte data pos ;;
  let pos := pos + 1 in
  if tlv_type =? NdefTlvPadding then ret (Continue pos message_count)
  else if tlv_type =? NdefTlvTerminator then ret (Return message_count)
  else if (tlv_type =? NdefTlvLockControl)
          || (tlv_type =? NdefTlvMemoryControl)
          || (tlv_type =? NdefTlvProprietary)
          || (tlv_type =? NdefTlvNdefMessage) then
    lp <- tlv_length data pos ;;
    let '(tlv_len, pos) := lp in
    if negb (tlv_type =? NdefTlvNdefMessage) then
      ret (Continue (pos + tlv_len) message_count)
    else
      let message_count := message_count + 1 in
      pos' <- parse_ndef_message mfuel data pos tlv_len message_count ;;
      ret (Continue pos' message_count)
  else ret (Return 0).

Fixpoint tlv_loop (mfuel fuel : nat) (data : bytes)
         (end_ pos message_count : Z) : M Z :=
  if pos <? end_ then
    match fuel with
    | O => out_of_fuel
    | S fuel' =>
      c <- tlv_step mfuel data pos message_count ;;
      match c with
      | Continue pos' message_count' =>
        tlv_loop mfuel fuel' data end_ pos' message_count'
      | Return value => ret value
      end
    end
  else ret message_count.

Definition parse_ndef_tlv (fuel : nat) (data : bytes)
           (pos length already_parsed : Z) : M Z :=
  let end_ := pos + length in
  let message_count := already_parsed in
  tlv_loop fuel fuel data end_ pos message_count.

(** [parse_ndef]: the public entry point.  [None] stands for a call that
    does not return within the iteration budget [length data]. *)
Definition parse_ndef (data : bytes) : option str :=
  match parse_ndef_tlv (List.length data) data 0 (len data) 0 [] with
  | (Ok message_count, output) =>
    if message_count =? 0 then Some (lit "No NDEF messages found.")
    else Some (strip output)
  | (Raise e, _) => Some (lit "Error during parsing: " ++ exn_str e)
  | (OutOfFuel, _) => None
  end.


(** ** Vocabulary of the properties *)

(** The [n] bytes of [data] from index [pos] on. *)
Definition sub (data : bytes) (pos n : Z) : bytes :=
  firstn (Z.to_nat n) (skipn (Z.to_nat pos) data).

(** The loop of [parse_ndef_message], started at its head with cursor [pos]
    and accumulator [out], is at its head again with cursor [p] and
    accumulator [o] after some records were decoded. *)
Inductive message_reach (data : bytes) (end_ mn : Z)
  : Z -> str -> Z -> str -> Prop :=
| mreach_here pos out : message_reach data end_ mn pos out pos out
| mreach_step pos out pos1 out1 p o :
    pos < end_ ->
    parse_ndef_record data pos mn out = (Ok pos1, out1) ->
    message_reach data end_ mn pos1 out1 p o ->
    message_reach data end_ mn pos out p o.

(** The same for the loop of [parse_ndef_tlv], whose state is the cursor,
    the message count and the accumulator. *)
Inductive tlv_reach (mfuel : nat) (data : bytes) (end_ : Z)
  : Z -> Z -> str -> Z -> Z -> str -> Prop :=
| treach_here pos c out : tlv_reach mfuel data end_ pos c out pos c out
| treach_step pos c out pos1 c1 out1 p c' o :
    pos < end_ ->
    tlv_step mfuel data pos c out = (Ok (Continue pos1 c1), out1) ->
    tlv_reach mfuel data end_ pos1 c1 out1 p c' o ->
    tlv_reach mfuel data end_ pos c out p c' o.

(** During the call [parse_ndef data] the TLV scanner is about to read the
    TLV type byte at index [p], with [c] messages counted and [o]
    accumulated so far. *)
Definition scanner_at (data : bytes) (p c : Z) (o : str) : Prop :=
  tlv_reach (List.length data) data (len data) 0 0 [] p c o /\ p < len data.

(** During the call [parse_ndef data] the record decoder is invoked at index
    [rp] with [ro] accumulated so far: the scanner found an NdefMessage TLV
    and the message decoder reached [rp] inside its declared range. *)
Definition record_at (data : bytes) (rp : Z) (ro : str) : Prop :=
  exists p c o tlv_len vp,
    scanner_at data p c o /\
    get_byte data p o = (Ok NdefTlvNdefMessage, o) /\
    tlv_length data (p + 1) o = (Ok (tlv_len, vp), o) /\
    message_reach data (vp + tlv_len) (c + 1) vp o rp ro /\
    rp < vp + tlv_len.

(** A computation that never exhausts an iteration budget. *)
Definition returns {A} (m : M A) : Prop :=
  forall out, fst (m out) <> OutOfFuel.

(** The result of [parse_ndef_tlv] as [parse_ndef] calls it: the message
    count or the exception, and the accumulator. *)
Definition scan (data : bytes) : result Z * str :=
  parse_ndef_tlv (List.length data) data 0 (len data) 0 [].

(** The text returned by [parse_ndef] when the exception [e] is caught. *)
Definition error_text (e : exn) : str :=
  lit "Error during parsing: " ++ exn_str e.

(** ** Buffers of the documented scenarios *)

(** [03 0B D1 01 07 55 01 6E 66 63 2E 72 65 FE] *)
Definition scenario_uri : bytes :=
  [x03; x0b; xd1; x01; x07; x55; x01; x6e; x66; x63; x2e; x72; x65; xfe].

(** [03 05 F1 01 01 55 00] *)
Definition scenario_truncated : bytes :=
  [x03; x05; xf1; x01; x01; x55; x00].

(** A Text record "X" in an NdefMessage TLV, then the TLV type byte 0x04. *)
Definition unknown_type_buffer : bytes :=
  [x03; x06; xd1; x01; x02; x54; x00; x58; x04].

(** A URI record "http://www.A" followed, in the same NdefMessage TLV, by a
    record whose flags byte 0xB1 has CF set. *)
Definition chunked_second_buffer : bytes :=
  [x03; x09; xd1; x01; x02; x55; x01; x41; xb1; x01; x00].

(** An NdefMessage TLV that declares 2 value bytes, holding a URI record
    of 6 bytes. *)
Definition overrun_buffer : bytes :=
  [x03; x02; xd1; x01; x02; x55; x01; x41].

(** ** Auxiliary notions for the comparison of two buffers *)

(** A position result moved by [k] bytes. *)
Definition shift_pos (k : Z) (x : result Z * str) : result Z * str :=
  match x with
  | (Ok p, o) => (Ok (k + p), o)
  | (Raise e, o) => (Raise e, o)
  | (OutOfFuel, o) => (OutOfFuel, o)
  end.

(** Lines 128-161 of the source: what [parse_ndef_record] does after the
    payload length field, with the cursor at [pos]. *)
Definition record_tail (data : bytes) (flags type_len payload_len pos : Z)
  : M Z :=
  let il := Z.land (Z.shiftr flags 3) 0x1 in
  let tnf := Z.land flags 0x07 in
  il' <- (if negb (il =? 0)
          then (id_len <- get_byte data pos ;; ret (id_len, pos + 1))
          else ret (0, pos)) ;;
  let '(id_len, pos) := il' in
  type_field <- liftR (Ndef.get data pos type_len) ;;
  let pos := pos + type_len in
  let pos := pos + id_len in
  dispatch data tnf type_field pos payload_len ;;;
  let pos := pos + payload_len in
  ret pos.

(** The buffers [d1] and [d2] hold the same bytes at the indices [0..t]. *)
Definition agree_upto (t : Z) (d1 d2 : bytes) : Prop :=
  firstn (Z.to_nat (t + 1)) d1 = firstn (Z.to_nat (t + 1)) d2.

(** A Text record with an empty payload, directly followed by a Terminator
    TLV and 254 further bytes; and the same buffer cut after the
    terminator. *)
Definition text_overread_cut : bytes :=
  [x03; x04; xd1; x01; x00; x54; xfe].
Definition text_overread_buffer : bytes :=
  text_overread_cut ++ repeat x00 254.

(** What the loop of [parse_ndef_tlv] does on the buffer [rest] that follows
    the length field of a TLV with value length [L]: the value is skipped,
    or decoded as a message when [is_message], and the scan goes on. *)
Definition after_tlv (rest : bytes) (mfuel fuel : nat) (is_message : bool)
           (L c : Z) : M Z :=
  if is_message then
    q <- message_loop mfuel rest L 0 (c + 1) ;;
    tlv_loop mfuel fuel rest (len rest) q (c + 1)
  else tlv_loop mfuel fuel rest (len rest) L c.

(** An NdefMessage TLV with one value byte (0xD1), a LockControl TLV with
    two value bytes and a terminator; and the same buffer with the length
    of the LockControl TLV in long form. *)
Definition lock_short_buffer : bytes :=
  [x03; x01; xd1] ++ x01 :: x02 :: [x55; x01; xfe].
Definition lock_long_buffer : bytes :=
  [x03; x01; xd1] ++ x01 :: xff :: x00 :: x02 :: [x55; x01; xfe].

(** ** Further notions *)

(** A computation that only appends to the accumulator and whose result
    and appended text do not depend on what was accumulated before. *)
Definition framed {A} (m : M A) : Prop :=
  forall out, m out = (fst (m []), out ++ snd (m [])).

(** The text [parse_ndef] returns for the result of a scan. *)
Definition render (x : result Z * str) : option str :=
  match x with
  | (Ok message_count, output) =>
    if message_count =? 0 then Some (lit "No NDEF messages found.")
    else Some (strip output)
  | (Raise e, _) => Some (lit "Error during parsing: " ++ exn_str e)
  | (OutOfFuel, _) => None
  end.

(** A Text record "X" in an NdefMessage TLV, then a Proprietary TLV that
    declares 16 value bytes of which only one is present. *)
Definition truncated_skip_buffer : bytes :=
  [x03; x06; xd1; x01; x02; x54; x00; x58; xfd; x10; x00].

(** The records decoded one after the other from cursor [pos] with
    accumulator [out], each given by the index where it starts and the index
    where it ends, and the cursor [q] and accumulator [o] after the last. *)
Inductive record_chain (data : bytes) (mn : Z)
  : Z -> str -> list (Z * Z) -> Z -> str -> Prop :=
| chain_nil pos out : record_chain data mn pos out [] pos out
| chain_cons pos out pos1 out1 recs q o :
    parse_ndef_record data pos mn out = (Ok pos1, out1) ->
    record_chain data mn pos1 out1 recs q o ->
    record_chain data mn pos out ((pos, pos1) :: recs) q o.

(** * Properties *)

(** ** Bytes, slices and the accessor *)

Lemma byte_val_range (b : byte) : 0 <= byte_val b < 256.
Proof.
  unfold byte_val. pose proof (Byte.to_N_bounded b). lia.
Qed.

Lemma len_nonneg {A} (l : list A) : 0 <= len l.
Proof. unfold len. lia. Qed.

Lemma len_app {A} (l1 l2 : list A) : len (l1 ++ l2) = len l1 + len l2.
Proof. unfold len. rewrite length_app. lia. Qed.

Lemma len_cons {A} (a : A) (l : list A) : len (a :: l) = 1 + len l.
Proof. unfold len. simpl List.length. lia. Qed.

Lemma slice_sub (data : bytes) (a b : Z) :
  0 <= a -> 0 <= b <= len data -> slice data a b = sub data a (b - a).
Proof.
  intros Ha Hb. unfold slice, sub.
  destruct (Z.ltb_spec a 0); [lia|].
  destruct (Z.ltb_spec b 0); [lia|].
  rewrite (Z.min_l b) by lia.
  destruct (Z.le_gt_cases a (len data)) as [Hle|Hgt].
  - rewrite Z.min_l by lia. reflexivity.
  - rewrite Z.min_r by lia.
    rewrite (skipn_all2 (n := Z.to_nat a)) by (unfold len in *; lia).
    rewrite skipn_all2 by (unfold len in *; lia).
    now rewrite !firstn_nil.
Qed.

Lemma len_sub (data : bytes) (pos n : Z) :
  0 <= pos -> 0 <= n -> pos + n <= len data -> len (sub data pos n) = n.
Proof.
  intros. unfold sub, len in *. rewrite length_firstn, length_skipn. lia.
Qed.

Lemma sub_nonpos (data : bytes) (pos n : Z) : n <= 0 -> sub data pos n = [].
Proof.
  intros. unfold sub. replace (Z.to_nat n) with O by lia. reflexivity.
Qed.

Lemma nth_error_sub (data : bytes) (pos n i : Z) :
  0 <= pos -> 0 <= i < n ->
  nth_error (sub data pos n) (Z.to_nat i) = nth_error data (Z.to_nat (pos + i)).
Proof.
  intros. unfold sub.
  rewrite nth_error_firstn.
  destruct (Nat.ltb_spec (Z.to_nat i) (Z.to_nat n)); [|lia].
  rewrite nth_error_skipn. f_equal. lia.
Qed.

Lemma get_ok (data : bytes) (pos length : Z) :
  0 <= pos -> 0 <= pos + length <= len data ->
  Ndef.get data pos length = Ok (sub data pos length).
Proof.
  intros. unfold Ndef.get.
  destruct (Z.gtb_spec (pos + length) (len data)); [lia|].
  rewrite slice_sub by lia. do 2 f_equal. lia.
Qed.

Lemma get_raise (data : bytes) (pos length : Z) :
  pos + length > len data -> Ndef.get data pos length = Raise Ndef.OutOfBounds.
Proof.
  intros. unfold Ndef.get.
  destruct (Z.gtb_spec (pos + length) (len data)); [reflexivity|lia].
Qed.

Lemma get_inv (data : bytes) (pos length : Z) (chunk : bytes) :
  Ndef.get data pos length = Ok chunk -> pos + length <= len data.
Proof.
  unfold Ndef.get.
  destruct (Z.gtb_spec (pos + length) (len data)); [discriminate|lia].
Qed.

(** C1. For non-negative [pos] and [length], [Ndef.get] fails with the
    out-of-bounds error exactly when [pos + length] exceeds the buffer size,
    and otherwise returns exactly the [length] bytes of the buffer starting
    at index [pos]. *)
Theorem get_contract (data : bytes) (pos length : Z) :
  0 <= pos -> 0 <= length ->
  (Ndef.get data pos length = Raise Ndef.OutOfBounds
   <-> pos + length > len data) /\
  (pos + length <= len data ->
   exists chunk,
     Ndef.get data pos length = Ok chunk /\
     len chunk = length /\
     forall i, 0 <= i < length ->
       nth_error chunk (Z.to_nat i) = nth_error data (Z.to_nat (pos + i))).
Proof.
  intros Hp Hl. split.
  - split.
    + intros H. destruct (Z.le_gt_cases (pos + length) (len data)); [|lia].
      rewrite get_ok in H by lia. discriminate.
    + apply get_raise.
  - intros Hb. exists (sub data pos length). split; [|split].
    + apply get_ok; lia.
    + apply len_sub; lia.
    + intros i Hi. apply nth_error_sub; lia.
Qed.

Lemma get_contract_witness :
  (Ndef.get [x03; x0b; xd1; x01] 1 2 = Raise Ndef.OutOfBounds
   <-> 1 + 2 > len [x03; x0b; xd1; x01]) /\
  (1 + 2 <= len [x03; x0b; xd1; x01] ->
   exists chunk,
     Ndef.get [x03; x0b; xd1; x01] 1 2 = Ok chunk /\
     len chunk = 2 /\
     forall i, 0 <= i < 2 ->
       nth_error chunk (Z.to_nat i)
       = nth_error [x03; x0b; xd1; x01] (Z.to_nat (1 + i))).
Proof.
  apply (get_contract [x03; x0b; xd1; x01] 1 2); lia.
Defined.

(** ** The output monad *)

Lemma bind_ok {A B} (m : M A) (k : A -> M B) out b out' :
  bind m k out = (Ok b, out') ->
  exists a o, m out = (Ok a, o) /\ k a o = (Ok b, out').
Proof.
  unfold bind. destruct (m out) as [[a|e|] o]; intros H; try discriminate.
  eauto.
Qed.

Lemma bind_eq {A B} (m : M A) (k : A -> M B) out a o :
  m out = (Ok a, o) -> bind m k out = k a o.
Proof. unfold bind. now intros ->. Qed.

Lemma bind_raise {A B} (m : M A) (k : A -> M B) out e o :
  m out = (Raise e, o) -> bind m k out = (Raise e, o).
Proof. unfold bind. now intros ->. Qed.

Lemma liftR_ok {A} (r : result A) out a out' :
  liftR r out = (Ok a, out') -> r = Ok a /\ out' = out.
Proof. unfold liftR. intros H. inversion H. auto. Qed.

Lemma ret_ok {A} (a b : A) out out' :
  ret a out = (Ok b, out') -> b = a /\ out' = out.
Proof. unfold ret. intros H. inversion H. auto. Qed.

Lemma emit_ok (s : str) out u out' :
  emit s out = (Ok u, out') -> out' = out ++ s.
Proof. unfold emit. intros H. inversion H. auto. Qed.

Ltac inv_ok :=
  repeat match goal with
  | H : bind _ _ _ = (Ok _, _) |- _ =>
    apply bind_ok in H; destruct H as (? & ? & ? & H)
  | H : liftR _ _ = (Ok _, _) |- _ =>
    apply liftR_ok in H; destruct H as [H ?]; subst
  | H : ret _ _ = (Ok _, _) |- _ =>
    apply ret_ok in H; destruct H as [? ?]; subst
  | H : (_, _) = (_, _) |- _ => inversion H; clear H; subst
  | H : emit _ _ = (Ok _, _) |- _ => apply emit_ok in H; subst
  | H : raise _ _ = (Ok _, _) |- _ => discriminate H
  | H : out_of_fuel _ = (Ok _, _) |- _ => discriminate H
  | H : (let '(_, _) := ?p in _) _ = (Ok _, _) |- _ => destruct p
  | H : (if ?c then _ else _) _ = (Ok _, _) |- _ => destruct c eqn:?
  end.

(** ** Single reads *)

Lemma index0_ok (chunk : bytes) (v : Z) :
  index0 chunk = Ok v ->
  exists b rest, chunk = b :: rest /\ v = byte_val b.
Proof.
  destruct chunk as [|b rest]; simpl; intros H; inversion H. eauto.
Qed.

Lemma get_byte_ok (data : bytes) pos out v out' :
  get_byte data pos out = (Ok v, out') ->
  out' = out /\ pos + 1 <= len data /\ 0 <= v < 256.
Proof.
  unfold get_byte. intros H. inv_ok.
  apply get_inv in H0. apply index0_ok in H as (b & rest & -> & ->).
  pose proof (byte_val_range b). auto.
Qed.

Lemma from_bytes_big_nonneg (bs : bytes) : 0 <= from_bytes_big bs.
Proof.
  unfold from_bytes_big.
  assert (G : forall acc, 0 <= acc ->
            0 <= fold_left (fun acc b => acc * 256 + byte_val b) bs acc).
  { induction bs as [|b bs IH]; simpl; intros acc Hacc; [lia|].
    apply IH. pose proof (byte_val_range b). lia. }
  apply G. lia.
Qed.

(** ** Forward progress and bounds of the record decoder *)

Lemma dump_ok (data : bytes) prefix pos length fh out u out' :
  Ndef.dump data prefix pos length fh out = (Ok u, out') ->
  pos + length <= len data.
Proof.
  unfold Ndef.dump. intros H. inv_ok; eapply get_inv; eauto.
Qed.

Lemma dispatch_ok (data : bytes) tnf type_field pos payload_len out u out' :
  dispatch data tnf type_field pos payload_len out = (Ok u, out') ->
  pos + payload_len <= len data.
Proof.
  unfold dispatch, parse_ndef_uri, parse_ndef_text, parse_ndef_bt,
    parse_ndef_vcard, parse_ndef_wifi.
  intros H.
  repeat match goal with
  | H : (if ?c then _ else _) _ = (Ok _, _) |- _ => destruct c eqn:?
  end;
  try (apply dump_ok in H; lia);
  inv_ok;
  repeat match goal with
  | H : Ndef.get _ _ _ = Ok _ |- _ => apply get_inv in H
  | H : get_byte _ _ _ = (Ok _, _) |- _ => apply get_byte_ok in H
  end; lia.
Qed.

Lemma record_ok (data : bytes) pos mn out pos' out' :
  parse_ndef_record data pos mn out = (Ok pos', out') ->
  pos + 3 <= pos' <= len data.
Proof.
  unfold parse_ndef_record. intros H. inv_ok;
  repeat match goal with
  | H : Ndef.get _ _ _ = Ok _ |- _ => apply get_inv in H
  | H : get_byte _ _ _ = (Ok _, _) |- _ => apply get_byte_ok in H
  | H : dispatch _ _ _ _ _ _ = (Ok _, _) |- _ => apply dispatch_ok in H
  end;
  repeat match goal with
  | |- context [from_bytes_big ?v] =>
    pose proof (from_bytes_big_nonneg v);
    generalize dependent (from_bytes_big v); intros
  end; lia.
Qed.

(** ** Computations without loops return *)

Lemma returns_bind {A B} (m : M A) (k : A -> M B) :
  returns m -> (forall a, returns (k a)) -> returns (bind m k).
Proof.
  intros Hm Hk out. unfold bind. specialize (Hm out).
  destruct (m out) as [[a|e|] o]; simpl in *;
    [apply Hk | discriminate | congruence].
Qed.

Lemma returns_ret {A} (a : A) : returns (ret a).
Proof. intros out. simpl. discriminate. Qed.

Lemma returns_raise {A} (e : exn) : returns (@raise A e).
Proof. intros out. simpl. discriminate. Qed.

Lemma returns_emit (s : str) : returns (emit s).
Proof. intros out. simpl. discriminate. Qed.

Lemma returns_get (data : bytes) pos length :
  returns (liftR (Ndef.get data pos length)).
Proof.
  intros out. unfold liftR, Ndef.get. simpl.
  destruct (pos + length >? len data); discriminate.
Qed.

Lemma returns_index0 (chunk : bytes) : returns (liftR (index0 chunk)).
Proof. intros out. destruct chunk; simpl; discriminate. Qed.

Lemma returns_get_byte (data : bytes) pos : returns (get_byte data pos).
Proof.
  unfold get_byte. apply returns_bind; [apply returns_get|].
  intros. apply returns_index0.
Qed.

Ltac returns_tac :=
  repeat first
    [ apply returns_ret | apply returns_raise | apply returns_emit
    | apply returns_get | apply returns_get_byte
    | apply returns_bind; [|intros]
    | match goal with
      | |- returns (if ?c then _ else _) => destruct c
      | |- returns (let '(_, _) := ?p in _) => destruct p
      end ].

Lemma returns_dispatch (data : bytes) tnf type_field pos payload_len :
  returns (dispatch data tnf type_field pos payload_len).
Proof.
  unfold dispatch, parse_ndef_uri, parse_ndef_text, parse_ndef_bt,
    parse_ndef_vcard, parse_ndef_wifi, Ndef.dump.
  returns_tac.
Qed.

Lemma returns_record (data : bytes) pos mn :
  returns (parse_ndef_record data pos mn).
Proof.
  unfold parse_ndef_record.
  returns_tac; apply returns_dispatch.
Qed.

Lemma returns_tlv_length (data : bytes) pos : returns (tlv_length data pos).
Proof. unfold tlv_length. returns_tac. Qed.

(** ** Forward progress of the loops *)

Lemma message_loop_ok (fuel : nat) (data : bytes) end_ mn :
  forall pos out pos' out',
    message_loop fuel data end_ pos mn out = (Ok pos', out') ->
    pos <= pos' /\ end_ <= pos' /\
    (pos < end_ -> pos + 3 <= pos' <= len data) /\
    (end_ <= pos -> pos' = pos).
Proof.
  induction fuel as [|fuel IH]; intros pos out pos' out' H; simpl in H;
    destruct (Z.ltb_spec pos end_).
  - discriminate.
  - inv_ok. lia.
  - inv_ok.
    match goal with
    | Hr : parse_ndef_record _ _ _ _ = _ |- _ => apply record_ok in Hr
    end.
    apply IH in H. lia.
  - inv_ok. lia.
Qed.

Lemma tlv_length_ok (data : bytes) pos out tlv_len pos' out' :
  tlv_length data pos out = (Ok (tlv_len, pos'), out') ->
  out' = out /\ 0 <= tlv_len /\ pos + 1 <= pos' <= len data.
Proof.
  unfold tlv_length. intros H. inv_ok;
  repeat match goal with
  | H : Ndef.get _ _ _ = Ok _ |- _ => apply get_inv in H
  | H : get_byte _ _ _ = (Ok _, _) |- _ => apply get_byte_ok in H
  | |- context [from_bytes_big ?v] =>
    pose proof (from_bytes_big_nonneg v);
    generalize dependent (from_bytes_big v); intros
  end; intuition (subst; try reflexivity; lia).
Qed.

Lemma tlv_step_ok (mfuel : nat) (data : bytes) pos c out pos' c' out' :
  tlv_step mfuel data pos c out = (Ok (Continue pos' c'), out') ->
  pos + 1 <= pos' /\ pos + 1 <= len data /\ c <= c' <= c + 1.
Proof.
  unfold tlv_step, parse_ndef_message. intros H. inv_ok;
  repeat match goal with
  | H : get_byte _ _ _ = (Ok _, _) |- _ => apply get_byte_ok in H
  | H : tlv_length _ _ _ = (Ok _, _) |- _ => apply tlv_length_ok in H
  | H : message_loop _ _ _ _ _ _ = (Ok _, _) |- _ => apply message_loop_ok in H
  | H : Continue _ _ = Continue _ _ |- _ => inversion H; clear H; subst
  | H : Return _ = Continue _ _ |- _ => discriminate H
  | H : Continue _ _ = Return _ |- _ => discriminate H
  end; lia.
Qed.

(** ** The iteration budget *)

Lemma message_loop_returns (fuel : nat) (data : bytes) end_ mn :
  forall pos out,
    Z.max 0 (len data - pos) < Z.of_nat fuel ->
    fst (message_loop fuel data end_ pos mn out) <> OutOfFuel.
Proof.
  induction fuel as [|fuel IH]; intros pos out Hf; [lia|].
  simpl. destruct (Z.ltb_spec pos end_); [|simpl; discriminate].
  unfold bind.
  destruct (parse_ndef_record data pos mn out) as [[pos1|e|] o] eqn:E.
  - apply record_ok in E. apply IH. lia.
  - simpl. discriminate.
  - pose proof (returns_record data pos mn out) as R. now rewrite E in R.
Qed.

Lemma message_loop_fuel_mono (fuel : nat) (data : bytes) end_ mn :
  forall fuel' pos out r o,
    (fuel <= fuel')%nat ->
    message_loop fuel data end_ pos mn out = (r, o) ->
    r <> OutOfFuel ->
    message_loop fuel' data end_ pos mn out = (r, o).
Proof.
  induction fuel as [|fuel IH]; intros fuel' pos out r o Hle H Hr.
  - simpl in H. destruct fuel'; simpl; destruct (pos <? end_); auto;
      inversion H; subst; congruence.
  - destruct fuel' as [|fuel']; [lia|]. simpl in *.
    destruct (pos <? end_); auto. unfold bind in *.
    destruct (parse_ndef_record data pos mn out) as [[pos1|e|] o1]; auto.
    apply IH; auto. lia.
Qed.

Lemma tlv_step_fuel_mono (mfuel mfuel' : nat) (data : bytes) pos c out r o :
  (mfuel <= mfuel')%nat ->
  tlv_step mfuel data pos c out = (r, o) ->
  r <> OutOfFuel ->
  tlv_step mfuel' data pos c out = (r, o).
Proof.
  intros Hle. unfold tlv_step, bind.
  destruct (get_byte data pos out) as [[v|e|] o1]; auto.
  destruct (v =? NdefTlvPadding); auto.
  destruct (v =? NdefTlvTerminator); auto.
  destruct ((v =? NdefTlvLockControl) || (v =? NdefTlvMemoryControl)
            || (v =? NdefTlvProprietary) || (v =? NdefTlvNdefMessage)); auto.
  destruct (tlv_length data (pos + 1) o1) as [[[l p]|e|] o2]; auto.
  destruct (negb (v =? NdefTlvNdefMessage)); auto.
  unfold parse_ndef_message.
  destruct (message_loop mfuel data (p + l) p (c + 1) o2) as [r1 o3] eqn:E.
  intros H Hr.
  assert (Hr1 : r1 <> OutOfFuel).
  { intros ->. inversion H; subst. congruence. }
  rewrite (message_loop_fuel_mono _ _ _ _ _ _ _ _ _ Hle E Hr1). exact H.
Qed.

Lemma tlv_step_returns (mfuel : nat) (data : bytes) pos c out :
  len data <= Z.of_nat mfuel -> 0 <= pos ->
  fst (tlv_step mfuel data pos c out) <> OutOfFuel.
Proof.
  intros Hm Hp. unfold tlv_step, bind.
  destruct (get_byte data pos out) as [[v|e|] o1] eqn:E1;
    [| simpl; discriminate
     | pose proof (returns_get_byte data pos out) as R; now rewrite E1 in R].
  apply get_byte_ok in E1.
  destruct (v =? NdefTlvPadding); [simpl; discriminate|].
  destruct (v =? NdefTlvTerminator); [simpl; discriminate|].
  destruct ((v =? NdefTlvLockControl) || (v =? NdefTlvMemoryControl)
            || (v =? NdefTlvProprietary) || (v =? NdefTlvNdefMessage));
    [|simpl; discriminate].
  destruct (tlv_length data (pos + 1) o1) as [[[l p]|e|] o2] eqn:E2;
    [| simpl; discriminate
     | pose proof (returns_tlv_length data (pos + 1) o1) as R;
       now rewrite E2 in R].
  apply tlv_length_ok in E2.
  destruct (negb (v =? NdefTlvNdefMessage)); [simpl; discriminate|].
  unfold parse_ndef_message.
  pose proof (message_loop_returns mfuel data (p + l) (c + 1) p o2) as R.
  destruct (message_loop mfuel data (p + l) p (c + 1) o2) as [[p'|e|] o3];
    simpl in *; try discriminate.
  exfalso. apply R; [lia|reflexivity].
Qed.

Lemma tlv_loop_returns (mfuel fuel : nat) (data : bytes) end_ :
  forall pos c out,
    len data <= Z.of_nat mfuel -> end_ <= len data -> 0 <= pos ->
    end_ - pos <= Z.of_nat fuel ->
    fst (tlv_loop mfuel fuel data end_ pos c out) <> OutOfFuel.
Proof.
  induction fuel as [|fuel IH]; intros pos c out Hm He Hp Hf; simpl;
    destruct (Z.ltb_spec pos end_); try (simpl; discriminate); [lia|].
  unfold bind.
  pose proof (tlv_step_returns mfuel data pos c out Hm Hp) as R.
  destruct (tlv_step mfuel data pos c out) as [[[pos1 c1|v]|e|] o] eqn:E;
    simpl in *; try discriminate; try congruence.
  apply tlv_step_ok in E. apply IH; lia.
Qed.

Lemma tlv_loop_fuel_mono (mfuel mfuel' fuel : nat) (data : bytes) end_ :
  forall fuel' pos c out r o,
    (mfuel <= mfuel')%nat -> (fuel <= fuel')%nat ->
    tlv_loop mfuel fuel data end_ pos c out = (r, o) ->
    r <> OutOfFuel ->
    tlv_loop mfuel' fuel' data end_ pos c out = (r, o).
Proof.
  induction fuel as [|fuel IH]; intros fuel' pos c out r o Hm Hle H Hr.
  - simpl in H. destruct fuel'; simpl; destruct (pos <? end_); auto;
      inversion H; subst; congruence.
  - destruct fuel' as [|fuel']; [lia|]. simpl in *.
    destruct (pos <? end_); auto. unfold bind in *.
    destruct (tlv_step mfuel data pos c out) as [r1 o1] eqn:E.
    assert (Hr1 : r1 <> OutOfFuel).
    { intros ->. inversion H; subst. congruence. }
    rewrite (tlv_step_fuel_mono _ _ _ _ _ _ _ _ Hm E Hr1).
    destruct r1 as [[pos1 c1|v]|e|]; auto.
    apply IH; auto. lia.
Qed.

(** [parse_ndef_tlv] as called by [parse_ndef] returns within its budget. *)
Lemma parse_ndef_tlv_returns (data : bytes) :
  fst (parse_ndef_tlv (List.length data) data 0 (len data) 0 []) <> OutOfFuel.
Proof.
  unfold parse_ndef_tlv. apply tlv_loop_returns; unfold len; lia.
Qed.

(** ** The documented scenarios *)

(** C3. The 14-byte buffer 03 0B D1 01 07 55 01 6E 66 63 2E 72 65 FE parses
    successfully: one NDEF message is counted and the returned text is
    exactly "URI\nhttp://www.nfc.re"; prefix code 1 stands for
    "http://www." and the remaining payload bytes decode to "nfc.re". *)
Theorem scenario_uri_parses :
  scan scenario_uri
  = (Ok 1, lit "URI" ++ nl ++ lit "http://www.nfc.re" ++ nl) /\
  parse_ndef scenario_uri = Some (lit "URI" ++ nl ++ lit "http://www.nfc.re") /\
  dict_get ndef_uri_prepends 1 "" = "http://www."%string /\
  decode_utf8 (sub scenario_uri 7 6) = lit "nfc.re".
Proof. repeat split; vm_compute; reflexivity. Qed.

(** C7 as stated: the truncated scenario would end in the
    out-of-bounds error.  It does not. *)
Lemma scenario_truncated_not_out_of_bounds :
  parse_ndef scenario_truncated <> Some (error_text Ndef.OutOfBounds).
Proof. vm_compute. discriminate. Qed.

(** C7 (amended). For the 7-byte buffer 03 05 F1 01 01 55 00 the flags byte
    0xF1 has the CF bit set, so the parse fails with the chunked-record
    error before any length field is read; the result is that error message
    alone and nothing was accumulated, so no partial "URI" text. *)
Theorem scenario_truncated_chunked :
  Z.testbit (byte_val xf1) 5 = true /\
  scan scenario_truncated = (Raise Chunked, []) /\
  parse_ndef scenario_truncated
  = Some (lit "Error during parsing: Chunked records not supported").
Proof. repeat split; vm_compute; reflexivity. Qed.

(** The other documented scenarios, as checks of the embedding. *)

Example scenario_text :
  parse_ndef [x03; x06; xd1; x01; x02; x54; x00; x58; xfe]
  = Some (lit "Text" ++ nl ++ lit "X").
Proof. vm_compute. reflexivity. Qed.

Example scenario_text_empty_payload :
  parse_ndef [x03; x03; xd1; x01; x00; x54; xfe]
  = Some (error_text Ndef.OutOfBounds).
Proof. vm_compute. reflexivity. Qed.

Example scenario_padding :
  scan [x00; x00; xfe] = (Ok 0, []) /\
  parse_ndef [x00; x00; xfe] = Some (lit "No NDEF messages found.").
Proof. split; vm_compute; reflexivity. Qed.

Example scenario_chunked :
  parse_ndef [x03; x03; xb1; x01; x00] = Some (error_text Chunked).
Proof. vm_compute. reflexivity. Qed.

Example dump_printable :
  Ndef.dump [x41; x09; x7e] (lit "Unknown Media") 0 3 false []
  = (Ok tt, lit "Unknown Media: " ++ [65; 9; 126] ++ nl).
Proof. vm_compute. reflexivity. Qed.

Example dump_hex :
  Ndef.dump [x41; x7f; x0a] (lit "Unknown Media") 0 3 false []
  = (Ok tt, lit "Unknown Media: 41 7F 0A" ++ nl).
Proof. vm_compute. reflexivity. Qed.

(** On ASCII bytes the UTF-8 decoder is the identity. *)
Lemma decode_utf8_ascii (bs : bytes) :
  Forall (fun b => byte_val b < 0x80) bs ->
  decode_utf8 bs = map byte_val bs.
Proof.
  induction 1 as [|b bs Hb _ IH]; [reflexivity|].
  simpl. destruct (Z.ltb_spec (byte_val b) 128); [|lia]. now rewrite IH.
Qed.

(** ** Termination *)

(** C9. Parsing terminates on every buffer: each successful step of the
    record decoder, of the message decoder and of the TLV scanner strictly
    increases the cursor, and with a budget of [length data] iterations the
    loops of [parse_ndef_message] (entered from the scanner) and of
    [parse_ndef_tlv] complete or abort with an error; they never exhaust
    the budget, and [parse_ndef] returns. *)
Theorem parsing_terminates (data : bytes) :
  (forall pos mn out pos' out',
      parse_ndef_record data pos mn out = (Ok pos', out') -> pos < pos') /\
  (forall fuel pos length mn out pos' out',
      0 < length ->
      parse_ndef_message fuel data pos length mn out = (Ok pos', out') ->
      pos < pos') /\
  (forall mfuel pos c out pos' c' out',
      tlv_step mfuel data pos c out = (Ok (Continue pos' c'), out') ->
      pos < pos') /\
  (forall pos c out,
      0 <= pos ->
      fst (tlv_step (List.length data) data pos c out) <> OutOfFuel) /\
  fst (scan data) <> OutOfFuel /\
  parse_ndef data <> None.
Proof.
  repeat split.
  - intros * H. apply record_ok in H. lia.
  - intros * Hl H. unfold parse_ndef_message in H.
    apply message_loop_ok in H. lia.
  - intros * H. apply tlv_step_ok in H. lia.
  - intros. apply tlv_step_returns; unfold len; lia.
  - apply parse_ndef_tlv_returns.
  - unfold parse_ndef. pose proof (parse_ndef_tlv_returns data) as R.
    destruct (parse_ndef_tlv _ _ _ _ _ _) as [[mc|e|] o]; simpl in R;
      try discriminate; try congruence.
    destruct (mc =? 0); discriminate.
Qed.

Lemma parsing_terminates_witness :
  2 < 13 /\
  fst (scan scenario_uri) <> OutOfFuel /\
  parse_ndef scenario_uri <> None.
Proof.
  pose proof (parsing_terminates scenario_uri)
    as (Hrec & _ & _ & _ & Hscan & Hret).
  split; [|split; assumption].
  apply (Hrec 2 1 [] 13 (lit "URI" ++ nl ++ lit "http://www.nfc.re" ++ nl)).
  vm_compute. reflexivity.
Defined.

(** ** The entry point never fails *)

Lemma bind_raise_inv {A B} (m : M A) (k : A -> M B) out e o :
  bind m k out = (Raise e, o) ->
  m out = (Raise e, o) \/
  exists a o', m out = (Ok a, o') /\ k a o' = (Raise e, o).
Proof.
  unfold bind. destruct (m out) as [[a|e'|] o']; intros H;
    [right; eauto | left; inversion H; reflexivity | discriminate H].
Qed.

Lemma liftR_raise_inv {A} (r : result A) out e o :
  liftR r out = (Raise e, o) -> r = Raise e.
Proof. unfold liftR. intros H. now inversion H. Qed.

Lemma get_raise_inv (data : bytes) (q l : Z) (e : exn) :
  Ndef.get data q l = Raise e -> e = Ndef.OutOfBounds.
Proof.
  unfold Ndef.get. destruct (q + l >? len data); intros H; now inversion H.
Qed.

(** On a non-negative index [ndef.get(pos, 1)[0]] never raises IndexError. *)
Lemma get_byte_raise_inv (data : bytes) (q : Z) out e o :
  get_byte data q out = (Raise e, o) -> 0 <= q -> e = Ndef.OutOfBounds.
Proof.
  unfold get_byte. intros H Hq.
  apply bind_raise_inv in H as [H | (chunk & o' & Hg & H)];
    apply liftR_raise_inv in H.
  - now apply get_raise_inv in H.
  - apply liftR_ok in Hg as [Hg _]. pose proof (get_inv _ _ _ _ Hg) as Hb.
    rewrite get_ok in Hg by lia. inversion Hg; subst.
    pose proof (len_sub data q 1 Hq ltac:(lia) Hb) as Hl.
    destruct (sub data q 1); [discriminate Hl|discriminate H].
Qed.

Ltac inv_raise :=
  repeat match goal with
  | H : bind _ _ _ = (Raise _, _) |- _ =>
    apply bind_raise_inv in H; destruct H as [H | (? & ? & ? & H)]
  | H : liftR _ _ = (Raise _, _) |- _ => apply liftR_raise_inv in H
  | H : ret _ _ = (Raise _, _) |- _ => discriminate H
  | H : emit _ _ = (Raise _, _) |- _ => discriminate H
  | H : raise _ _ = (Raise _, _) |- _ => inversion H; clear H; subst
  | H : (let '(_, _) := ?p in _) _ = (Raise _, _) |- _ => destruct p
  | H : (if ?c then _ else _) _ = (Raise _, _) |- _ => destruct c eqn:?
  | H : bind _ _ _ = (Ok _, _) |- _ =>
    apply bind_ok in H; destruct H as (? & ? & ? & H)
  | H : liftR _ _ = (Ok _, _) |- _ =>
    apply liftR_ok in H; destruct H as [H ?]; subst
  | H : ret _ _ = (Ok _, _) |- _ =>
    apply ret_ok in H; destruct H as [? ?]; subst
  | H : (_, _) = (_, _) |- _ => inversion H; clear H; subst
  | H : emit _ _ = (Ok _, _) |- _ => apply emit_ok in H; subst
  | H : (let '(_, _) := ?p in _) _ = (Ok _, _) |- _ => destruct p
  | H : (if ?c then _ else _) _ = (Ok _, _) |- _ => destruct c eqn:?
  end.

Ltac raise_facts :=
  repeat match goal with
  | H : get_byte _ _ _ = (Ok _, _) |- _ => apply get_byte_ok in H
  | H : Ndef.get _ _ _ = Ok _ |- _ => apply get_inv in H
  | H : Ndef.get _ _ _ = Raise _ |- _ => apply get_raise_inv in H; subst
  end;
  repeat match goal with
  | H : get_byte _ _ _ = (Raise _, _) |- _ =>
    apply get_byte_raise_inv in H; [subst | lia]
  end.

Lemma dispatch_raise_inv (data : bytes) tnf type_field q payload_len out e o :
  dispatch data tnf type_field q payload_len out = (Raise e, o) ->
  0 <= q -> e = Ndef.OutOfBounds.
Proof.
  unfold dispatch, parse_ndef_uri, parse_ndef_text, parse_ndef_bt,
    parse_ndef_vcard, parse_ndef_wifi, Ndef.dump.
  intros H Hq. inv_raise; raise_facts; reflexivity.
Qed.

Lemma record_raise_inv (data : bytes) q mn out e o :
  parse_ndef_record data q mn out = (Raise e, o) ->
  0 <= q -> e = Ndef.OutOfBounds \/ e = Chunked.
Proof.
  unfold parse_ndef_record. intros H Hq.
  inv_raise; raise_facts; auto;
    match goal with
    | H : dispatch _ _ _ _ _ _ = (Raise _, _) |- _ =>
      apply dispatch_raise_inv in H; [auto | lia]
    end.
Qed.

Lemma message_loop_raise_inv (fuel : nat) (data : bytes) end_ mn :
  forall q out e o,
    message_loop fuel data end_ q mn out = (Raise e, o) ->
    0 <= q -> e = Ndef.OutOfBounds \/ e = Chunked.
Proof.
  induction fuel as [|fuel IH]; intros q out e o H Hq; simpl in H;
    destruct (q <? end_); try discriminate H.
  apply bind_raise_inv in H as [H | (q1 & o1 & Hrec & H)].
  - now apply record_raise_inv in H.
  - apply record_ok in Hrec. apply IH in H; [assumption|lia].
Qed.

Lemma tlv_step_raise_inv (mfuel : nat) (data : bytes) q c out e o :
  tlv_step mfuel data q c out = (Raise e, o) ->
  0 <= q -> e = Ndef.OutOfBounds \/ e = Chunked.
Proof.
  unfold tlv_step, tlv_length, parse_ndef_message. intros H Hq.
  inv_raise; raise_facts; auto;
    match goal with
    | H : message_loop _ _ _ _ _ _ = (Raise _, _) |- _ =>
      apply message_loop_raise_inv in H; [auto | lia]
    end.
Qed.

Lemma tlv_loop_raise_inv (mfuel fuel : nat) (data : bytes) end_ :
  forall q c out e o,
    tlv_loop mfuel fuel data end_ q c out = (Raise e, o) ->
    0 <= q -> e = Ndef.OutOfBounds \/ e = Chunked.
Proof.
  induction fuel as [|fuel IH]; intros q c out e o H Hq; simpl in H;
    destruct (q <? end_); try discriminate H.
  apply bind_raise_inv in H as [H | ([q1 c1|v] & o1 & Hstep & H)].
  - now apply tlv_step_raise_inv in H.
  - apply tlv_step_ok in Hstep. apply IH in H; [assumption|lia].
  - discriminate H.
Qed.

(** C10. For every buffer, the empty one included, [parse_ndef] returns a
    string.  The only exceptions raised inside are the out-of-bounds and the
    chunked-record errors (indexing the one-byte result of a read never
    fails), and each is caught and rendered as the single text
    "Error during parsing: " followed by its message. *)
Theorem parse_ndef_returns_string (data : bytes) :
  (exists s, parse_ndef data = Some s) /\
  (forall e o, scan data = (Raise e, o) ->
               (e = Ndef.OutOfBounds \/ e = Chunked) /\
               parse_ndef data = Some (error_text e)) /\
  parse_ndef [] = Some (lit "No NDEF messages found.").
Proof.
  split; [|split].
  - pose proof (parse_ndef_tlv_returns data) as R. unfold parse_ndef.
    destruct (parse_ndef_tlv _ _ _ _ _ _) as [[mc|e|] o]; simpl in R.
    + destruct (mc =? 0); eauto.
    + eauto.
    + congruence.
  - intros e o H. split.
    + unfold scan, parse_ndef_tlv in H.
      apply tlv_loop_raise_inv in H; [assumption|lia].
    + unfold parse_ndef. unfold scan in H. rewrite H. reflexivity.
  - reflexivity.
Qed.

Lemma parse_ndef_returns_string_witness :
  (Chunked = Ndef.OutOfBounds \/ Chunked = Chunked) /\
  parse_ndef scenario_truncated = Some (error_text Chunked).
Proof.
  apply (proj1 (proj2 (parse_ndef_returns_string scenario_truncated))
           Chunked []).
  vm_compute. reflexivity.
Defined.

(** ** From a reached loop head to the result of the loop *)

Lemma message_reach_loop (data : bytes) end_ mn pos out p o :
  message_reach data end_ mn pos out p o ->
  forall fuel r o',
    message_loop fuel data end_ pos mn out = (r, o') ->
    r <> OutOfFuel ->
    exists fuel', message_loop fuel' data end_ p mn o = (r, o').
Proof.
  induction 1 as [pos out|pos out pos1 out1 p o Hlt Hrec _ IH];
    intros fuel r o' H Hr; [eauto|].
  destruct fuel as [|fuel]; simpl in H;
    destruct (Z.ltb_spec pos end_); try lia.
  - inversion H; subst. congruence.
  - rewrite (bind_eq _ _ _ _ _ Hrec) in H. eauto.
Qed.

Lemma tlv_reach_loop (mfuel : nat) (data : bytes) end_ pos c out p c' o :
  tlv_reach mfuel data end_ pos c out p c' o ->
  forall fuel r o',
    tlv_loop mfuel fuel data end_ pos c out = (r, o') ->
    r <> OutOfFuel ->
    exists fuel', tlv_loop mfuel fuel' data end_ p c' o = (r, o').
Proof.
  induction 1 as [pos c out|pos c out pos1 c1 out1 p c' o Hlt Hstep _ IH];
    intros fuel r o' H Hr; [eauto|].
  destruct fuel as [|fuel]; simpl in H;
    destruct (Z.ltb_spec pos end_); try lia.
  - inversion H; subst. congruence.
  - rewrite (bind_eq _ _ _ _ _ Hstep) in H. eauto.
Qed.

Lemma message_reach_le (data : bytes) end_ mn pos out p o :
  message_reach data end_ mn pos out p o -> pos <= p.
Proof.
  induction 1 as [|pos out pos1 out1 p o _ Hrec _ IH]; [lia|].
  apply record_ok in Hrec. lia.
Qed.

Lemma tlv_reach_le (mfuel : nat) (data : bytes) end_ pos c out p c' o :
  tlv_reach mfuel data end_ pos c out p c' o -> pos <= p.
Proof.
  induction 1 as [|pos c out pos1 c1 out1 p c' o _ Hstep _ IH]; [lia|].
  apply tlv_step_ok in Hstep. lia.
Qed.

(** What the scanner does at a reached loop head decides the scan. *)
Lemma scanner_at_return (data : bytes) p c o v o' :
  scanner_at data p c o ->
  tlv_step (List.length data) data p c o = (Ok (Return v), o') ->
  scan data = (Ok v, o').
Proof.
  intros [Hreach Hlt] Hstep.
  pose proof (parse_ndef_tlv_returns data) as R. unfold scan.
  destruct (parse_ndef_tlv _ _ _ _ _ _) as [r o1] eqn:E. simpl in R.
  unfold parse_ndef_tlv in E.
  destruct (tlv_reach_loop _ _ _ _ _ _ _ _ _ Hreach _ _ _ E R) as [fuel' H].
  destruct fuel' as [|fuel']; simpl in H;
    destruct (Z.ltb_spec p (len data)); try lia.
  - inversion H; subst. congruence.
  - rewrite (bind_eq _ _ _ _ _ Hstep) in H. simpl in H. now rewrite <- H.
Qed.

Lemma scanner_at_raise (data : bytes) p c o e o' :
  scanner_at data p c o ->
  tlv_step (List.length data) data p c o = (Raise e, o') ->
  scan data = (Raise e, o').
Proof.
  intros [Hreach Hlt] Hstep.
  pose proof (parse_ndef_tlv_returns data) as R. unfold scan.
  destruct (parse_ndef_tlv _ _ _ _ _ _) as [r o1] eqn:E. simpl in R.
  unfold parse_ndef_tlv in E.
  destruct (tlv_reach_loop _ _ _ _ _ _ _ _ _ Hreach _ _ _ E R) as [fuel' H].
  destruct fuel' as [|fuel']; simpl in H;
    destruct (Z.ltb_spec p (len data)); try lia.
  - inversion H; subst. congruence.
  - rewrite (bind_raise _ _ _ _ _ Hstep) in H. now rewrite <- H.
Qed.

(** ** Malformed TLV types *)

(** C6. If the scanner reads a top-level TLV type byte that is none of
    0x00, 0x01, 0x02, 0x03, 0xFD and 0xFE, the scan stops there and reports
    zero parsed messages, whatever the number [c] of messages it had
    already decoded; [parse_ndef] then answers that no message was found. *)
Theorem unknown_tlv_type_reports_zero (data : bytes) (p c : Z) (o : str)
        (tlv_type : Z) :
  scanner_at data p c o ->
  get_byte data p o = (Ok tlv_type, o) ->
  tlv_type <> NdefTlvPadding -> tlv_type <> NdefTlvLockControl ->
  tlv_type <> NdefTlvMemoryControl -> tlv_type <> NdefTlvNdefMessage ->
  tlv_type <> NdefTlvProprietary -> tlv_type <> NdefTlvTerminator ->
  tlv_step (List.length data) data p c o = (Ok (Return 0), o) /\
  scan data = (Ok 0, o) /\
  parse_ndef data = Some (lit "No NDEF messages found.").
Proof.
  intros Hat Hb H0 H1 H2 H3 H4 H5.
  assert (Hstep : tlv_step (List.length data) data p c o = (Ok (Return 0), o)).
  { unfold tlv_step. rewrite (bind_eq _ _ _ _ _ Hb).
    repeat match goal with
    | |- context [?a =? ?b] => destruct (Z.eqb_spec a b); [congruence|]
    end. reflexivity. }
  pose proof (scanner_at_return _ _ _ _ _ _ Hat Hstep) as Hs.
  repeat split; auto.
  unfold parse_ndef. unfold scan in Hs. now rewrite Hs.
Qed.

Lemma unknown_tlv_type_reports_zero_witness :
  scan unknown_type_buffer = (Ok 0, lit "Text" ++ nl ++ lit "X" ++ nl) /\
  parse_ndef unknown_type_buffer = Some (lit "No NDEF messages found.").
Proof.
  destruct (unknown_tlv_type_reports_zero unknown_type_buffer 8 1
              (lit "Text" ++ nl ++ lit "X" ++ nl) 4) as (_ & Hs & Hp);
    try (vm_compute; congruence); [|split; assumption].
  split; [|vm_compute; reflexivity].
  eapply treach_step; [vm_compute; reflexivity| |apply treach_here].
  vm_compute. reflexivity.
Defined.

(** ** Chunked records *)

Lemma cf_bit_set (flags : Z) :
  Z.testbit flags 5 = true -> Z.land (Z.shiftr flags 5) 1 = 1.
Proof.
  intros H. change 1 with (Z.ones 1) at 1. rewrite Z.land_ones by lia.
  assert (B : Z.testbit (Z.shiftr flags 5) 0 = true)
    by (rewrite Z.shiftr_spec by lia; exact H).
  rewrite Z.bit0_odd in B. rewrite Zmod_odd, B. reflexivity.
Qed.

Lemma record_chunked (data : bytes) pos mn out flags :
  get_byte data pos out = (Ok flags, out) ->
  Z.testbit flags 5 = true ->
  parse_ndef_record data pos mn out = (Raise Chunked, out).
Proof.
  intros Hb Hcf. unfold parse_ndef_record.
  rewrite (bind_eq _ _ _ _ _ Hb). rewrite (cf_bit_set _ Hcf). reflexivity.
Qed.

Lemma message_reach_raise (data : bytes) end_ mn pos out p o e o' :
  message_reach data end_ mn pos out p o ->
  p < end_ ->
  parse_ndef_record data p mn o = (Raise e, o') ->
  forall fuel r o'',
    message_loop fuel data end_ pos mn out = (r, o'') ->
    r <> OutOfFuel ->
    (r, o'') = (Raise e, o').
Proof.
  intros Hreach Hlt Hrec fuel r o'' H Hr.
  destruct (message_reach_loop _ _ _ _ _ _ _ Hreach _ _ _ H Hr) as [fuel' H'].
  destruct fuel' as [|fuel']; simpl in H';
    destruct (Z.ltb_spec p end_); try lia.
  - inversion H'; subst. congruence.
  - rewrite (bind_raise _ _ _ _ _ Hrec) in H'. now rewrite <- H'.
Qed.

Lemma scanner_at_nonneg (data : bytes) p c o : scanner_at data p c o -> 0 <= p.
Proof. intros [H _]. now apply tlv_reach_le in H. Qed.

(** An exception raised by the record decoder, wherever it is invoked
    during [parse_ndef], is the outcome of the whole scan. *)
Lemma record_at_raise (data : bytes) rp ro mn e o' :
  record_at data rp ro ->
  parse_ndef_record data rp mn ro = (Raise e, o') ->
  scan data = (Raise e, o').
Proof.
  intros (p & c & o & tlv_len & vp & Hat & Hty & Hlen & Hreach & Hlt) Hrec.
  eapply scanner_at_raise; [exact Hat|].
  pose proof (scanner_at_nonneg _ _ _ _ Hat) as Hp.
  unfold tlv_step. rewrite (bind_eq _ _ _ _ _ Hty).
  change (NdefTlvNdefMessage =? NdefTlvPadding) with false.
  change (NdefTlvNdefMessage =? NdefTlvTerminator) with false.
  cbv iota.
  change ((NdefTlvNdefMessage =? NdefTlvLockControl)
          || (NdefTlvNdefMessage =? NdefTlvMemoryControl)
          || (NdefTlvNdefMessage =? NdefTlvProprietary)
          || (NdefTlvNdefMessage =? NdefTlvNdefMessage)) with true.
  cbv iota.
  rewrite (bind_eq _ _ _ _ _ Hlen).
  change (negb (NdefTlvNdefMessage =? NdefTlvNdefMessage)) with false.
  cbv iota. unfold parse_ndef_message.
  apply tlv_length_ok in Hlen.
  pose proof (message_loop_returns (List.length data) data (vp + tlv_len)
                (c + 1) vp o) as R.
  destruct (message_loop (List.length data) data (vp + tlv_len) vp (c + 1) o)
    as [r o1] eqn:E.
  simpl in R. assert (Hr : r <> OutOfFuel) by (apply R; unfold len in *; lia).
  change (parse_ndef_record data rp (c + 1) ro = (Raise e, o')) in Hrec.
  pose proof (message_reach_raise _ _ _ _ _ _ _ _ _ Hreach Hlt Hrec _ _ _ E Hr)
    as Heq.
  inversion Heq; subst.
  unfold bind. rewrite E. reflexivity.
Qed.

(** C4. If, during a call of [parse_ndef], the record decoder reads a flags
    byte whose CF bit (bit 5) is set, the call fails with the chunked-record
    error: the result is exactly that one error message, independently of
    the text [ro] accumulated for the records decoded before. *)
Theorem chunked_record_aborts (data : bytes) (rp : Z) (ro : str) (flags : Z) :
  record_at data rp ro ->
  get_byte data rp ro = (Ok flags, ro) ->
  Z.testbit flags 5 = true ->
  scan data = (Raise Chunked, ro) /\
  parse_ndef data
  = Some (lit "Error during parsing: Chunked records not supported").
Proof.
  intros Hat Hb Hcf.
  assert (Hs : scan data = (Raise Chunked, ro)).
  { eapply record_at_raise with (mn := 0); [exact Hat|].
    now apply record_chunked with (flags := flags). }
  split; [exact Hs|].
  unfold parse_ndef. unfold scan in Hs. now rewrite Hs.
Qed.

Lemma chunked_record_aborts_witness :
  scan chunked_second_buffer
  = (Raise Chunked, lit "URI" ++ nl ++ lit "http://www.A" ++ nl) /\
  parse_ndef chunked_second_buffer
  = Some (lit "Error during parsing: Chunked records not supported").
Proof.
  apply (chunked_record_aborts chunked_second_buffer 8
           (lit "URI" ++ nl ++ lit "http://www.A" ++ nl) 0xB1).
  - exists 0, 0, [], 9, 2. repeat split; try (vm_compute; reflexivity).
    + apply treach_here.
    + eapply mreach_step; [vm_compute; reflexivity| |apply mreach_here].
      vm_compute. reflexivity.
  - vm_compute. reflexivity.
  - vm_compute. reflexivity.
Defined.

(** ** Failing computations leave the accumulator alone *)

Lemma liftR_state {A} (r r' : result A) out o :
  liftR r out = (r', o) -> o = out /\ r = r'.
Proof. unfold liftR. intros H. inversion H. auto. Qed.

Lemma get_byte_state (data : bytes) q out r o :
  get_byte data q out = (r, o) -> o = out.
Proof.
  unfold get_byte, bind, liftR.
  destruct (Ndef.get data q 1); intros H; inversion H; reflexivity.
Qed.

Ltac inv_state :=
  repeat match goal with
  | H : bind _ _ _ = (Raise _, _) |- _ =>
    apply bind_raise_inv in H; destruct H as [H | (? & ? & ? & H)]
  | H : bind _ _ _ = (Ok _, _) |- _ =>
    apply bind_ok in H; destruct H as (? & ? & ? & H)
  | H : get_byte _ _ _ = (_, _) |- _ => apply get_byte_state in H; subst
  | H : liftR _ _ = (_, _) |- _ =>
    apply liftR_state in H; destruct H as [? _]; subst
  | H : ret _ _ = (Raise _, _) |- _ => discriminate H
  | H : emit _ _ = (Raise _, _) |- _ => discriminate H
  | H : raise _ _ = (Raise _, _) |- _ => inversion H; clear H; subst
  | H : ret _ _ = (Ok _, _) |- _ =>
    apply ret_ok in H; destruct H as [? ?]; subst
  | H : (let '(_, _) := ?p in _) _ = (_, _) |- _ => destruct p
  | H : (if ?c then _ else _) _ = (_, _) |- _ => destruct c
  end.

Lemma dispatch_raise_state (data : bytes) tnf type_field q payload_len
      out e o :
  dispatch data tnf type_field q payload_len out = (Raise e, o) -> o = out.
Proof.
  unfold dispatch, parse_ndef_uri, parse_ndef_text, parse_ndef_bt,
    parse_ndef_vcard, parse_ndef_wifi, Ndef.dump.
  intros H. inv_state; reflexivity.
Qed.

Lemma record_raise_state (data : bytes) q mn out e o :
  parse_ndef_record data q mn out = (Raise e, o) -> o = out.
Proof.
  unfold parse_ndef_record. intros H. inv_state; try reflexivity;
    match goal with
    | H : dispatch _ _ _ _ _ _ = (Raise _, _) |- _ =>
      now apply dispatch_raise_state in H
    end.
Qed.

(** ** Records and the range of the enclosing TLV *)

(** C2 as stated does not hold: the NdefMessage TLV of [overrun_buffer]
    declares the value range [2, 4), the record decoder is invoked at 2 and
    decodes a record that ends at 8, and the parse succeeds. *)
Lemma record_overruns_tlv_range :
  tlv_length overrun_buffer 1 [] = (Ok (2, 2), []) /\
  message_reach overrun_buffer (2 + 2) 1 2 [] 2 [] /\
  parse_ndef_record overrun_buffer 2 1 []
  = (Ok 8, lit "URI" ++ nl ++ lit "http://www.A" ++ nl) /\
  ~ 8 <= 2 + 2 /\
  parse_ndef overrun_buffer = Some (lit "URI" ++ nl ++ lit "http://www.A").
Proof.
  repeat split; try (vm_compute; reflexivity).
  - apply mreach_here.
  - lia.
Qed.

Lemma message_loop_chain (fuel : nat) (data : bytes) end_ mn :
  forall pos out,
    0 <= pos ->
    Z.max 0 (len data - pos) < Z.of_nat fuel ->
    exists recs q o,
      record_chain data mn pos out recs q o /\
      Forall (fun r => pos <= fst r < end_ /\ fst r + 3 <= snd r <= len data)
             recs /\
      ((~ q < end_ /\
        message_loop fuel data end_ pos mn out = (Ok q, o)) \/
       (pos <= q < end_ /\
        exists e,
          (e = Ndef.OutOfBounds \/ e = Chunked) /\
          parse_ndef_record data q mn o = (Raise e, o) /\
          message_loop fuel data end_ pos mn out = (Raise e, o))).
Proof.
  induction fuel as [|fuel IH]; intros pos out Hp Hf; [lia|].
  simpl. destruct (Z.ltb_spec pos end_) as [Hlt|Hge].
  - unfold bind.
    destruct (parse_ndef_record data pos mn out) as [[pos1|e|] o1] eqn:E.
    + pose proof (record_ok _ _ _ _ _ _ E) as Hb.
      destruct (IH pos1 o1 ltac:(lia) ltac:(lia))
        as (recs & q & o & Hc & Hall & Hres).
      exists ((pos, pos1) :: recs), q, o. split; [|split].
      * eapply chain_cons; eassumption.
      * constructor; [simpl; lia|].
        eapply Forall_impl; [|exact Hall]. simpl. intros r Hr. lia.
      * destruct Hres as [Hok | (Hq & e & He & Hr & Hl)].
        -- left. exact Hok.
        -- right. split; [lia|]. exists e. auto.
    + pose proof (record_raise_state _ _ _ _ _ _ E). subst o1.
      exists [], pos, out. split; [apply chain_nil|]. split; [constructor|].
      right. split; [lia|]. exists e. split; [|auto].
      eapply record_raise_inv; eassumption.
    + pose proof (returns_record data pos mn out) as R. now rewrite E in R.
  - exists [], pos, out. split; [apply chain_nil|]. split; [constructor|].
    left. split; [lia|reflexivity].
Qed.

(** C2 (amended). The run of the message decoder on the range
    [p, p + L) of an NdefMessage TLV is a sequence of records decoded one
    after the other from [p]; every record of it starts inside the range
    (at or after [p], before [p + L]) and lies entirely within the buffer
    (it ends at or before [len data]), but may end after [p + L].  The
    decoder returns the end of the last record, the first cursor that is not
    before [p + L]; or it aborts at a record that starts inside the range
    and cannot be decoded, with the out-of-bounds or the chunked-record
    error of that record. *)
Theorem record_within_buffer (fuel : nat) (data : bytes) (p L mn : Z)
        (out : str) :
  0 <= p ->
  Z.max 0 (len data - p) < Z.of_nat fuel ->
  exists recs q o,
    record_chain data mn p out recs q o /\
    Forall (fun r => p <= fst r < p + L /\ fst r + 3 <= snd r <= len data)
           recs /\
    ((~ q < p + L /\
      parse_ndef_message fuel data p L mn out = (Ok q, o)) \/
     (p <= q < p + L /\
      exists e,
        (e = Ndef.OutOfBounds \/ e = Chunked) /\
        parse_ndef_record data q mn o = (Raise e, o) /\
        parse_ndef_message fuel data p L mn out = (Raise e, o))).
Proof.
  intros Hp Hf. unfold parse_ndef_message.
  now apply message_loop_chain.
Qed.

Lemma record_within_buffer_witness :
  exists recs q o,
    record_chain overrun_buffer 1 2 [] recs q o /\
    Forall (fun r => 2 <= fst r < 2 + 2 /\
                     fst r + 3 <= snd r <= len overrun_buffer) recs /\
    ((~ q < 2 + 2 /\
      parse_ndef_message (List.length overrun_buffer) overrun_buffer 2 2 1 []
      = (Ok q, o)) \/
     (2 <= q < 2 + 2 /\
      exists e,
        (e = Ndef.OutOfBounds \/ e = Chunked) /\
        parse_ndef_record overrun_buffer q 1 o = (Raise e, o) /\
        parse_ndef_message (List.length overrun_buffer) overrun_buffer 2 2 1 []
        = (Raise e, o))).
Proof.
  apply (record_within_buffer (List.length overrun_buffer) overrun_buffer
           2 2 1 []).
  - lia.
  - vm_compute. reflexivity.
Defined.

(** ** Parsing a suffix: positions relative to a dropped prefix *)

Lemma parse_ndef_record_tail (data : bytes) (pos mn : Z) :
  parse_ndef_record data pos mn
  = (flags <- get_byte data pos ;;
     if negb (Z.land (Z.shiftr flags 5) 1 =? 0) then raise Chunked else
     type_len <- get_byte data (pos + 1) ;;
     pl <- (if negb (Z.land (Z.shiftr flags 4) 1 =? 0)
            then (payload_len <- get_byte data (pos + 1 + 1) ;;
                  ret (payload_len, pos + 1 + 1 + 1))
            else (v <- liftR (Ndef.get data (pos + 1 + 1) 4) ;;
                  ret (from_bytes_big v, pos + 1 + 1 + 4))) ;;
     let '(payload_len, pos) := pl in
     record_tail data flags type_len payload_len pos).
Proof. reflexivity. Qed.

Section Shift.

Variables pre d : bytes.

Lemma sub_shift (q l : Z) :
  0 <= q -> sub (pre ++ d) (len pre + q) l = sub d q l.
Proof.
  intros Hq. unfold sub. f_equal. rewrite skipn_app.
  rewrite skipn_all2 by (unfold len; lia). simpl. f_equal.
  unfold len. lia.
Qed.

Lemma get_shift (q l : Z) :
  0 <= q -> 0 <= q + l ->
  Ndef.get (pre ++ d) (len pre + q) l = Ndef.get d q l.
Proof.
  intros Hq Hl. pose proof (len_nonneg pre).
  destruct (Z.le_gt_cases (q + l) (len d)).
  - rewrite !get_ok by (rewrite ?len_app; lia). now rewrite sub_shift.
  - rewrite !get_raise by (rewrite ?len_app; lia). reflexivity.
Qed.

Lemma get_byte_shift (q : Z) (out : str) :
  0 <= q -> get_byte (pre ++ d) (len pre + q) out = get_byte d q out.
Proof.
  intros Hq. unfold get_byte, bind, liftR. now rewrite get_shift by lia.
Qed.

End Shift.

Ltac exec_get d :=
  match goal with
  | |- context [get_byte d ?q ?o] =>
    let E := fresh "E" in
    destruct (get_byte d q o) as [[? | ? | ] ?] eqn:E;
    [apply get_byte_ok in E | reflexivity | reflexivity]
  | |- context [Ndef.get d ?q ?l] =>
    destruct (Ndef.get d q l) as [? | ? | ];
    [ | reflexivity | reflexivity]
  end.

Section ShiftDecoders.

Variables pre d : bytes.

Ltac shift_exec :=
  repeat (cbv beta iota zeta; rewrite <- ?Z.add_assoc;
          first [ rewrite get_byte_shift by lia
                | rewrite get_shift by lia ];
          exec_get d).

Lemma dispatch_shift (tnf : Z) (type_field : bytes) (q payload_len : Z)
      (out : str) :
  0 <= q -> 0 <= payload_len ->
  dispatch (pre ++ d) tnf type_field (len pre + q) payload_len out
  = dispatch d tnf type_field q payload_len out.
Proof.
  intros Hq Hl.
  unfold dispatch, parse_ndef_uri, parse_ndef_text, parse_ndef_bt,
    parse_ndef_vcard, parse_ndef_wifi, Ndef.dump.
  repeat match goal with
  | |- context [if ?c then _ else _] => destruct c
  end; unfold bind, liftR; shift_exec; reflexivity.
Qed.

Ltac exec_dispatch :=
  cbv beta iota zeta; rewrite <- ?Z.add_assoc;
  rewrite dispatch_shift by lia;
  match goal with
  | |- context [dispatch d ?a ?b ?c ?e ?o] =>
    destruct (dispatch d a b c e o) as [[? | ? | ] ?];
    [ | reflexivity | reflexivity]
  end.

Lemma record_tail_shift (flags type_len payload_len q : Z) (out : str) :
  0 <= q -> 0 <= type_len -> 0 <= payload_len ->
  record_tail (pre ++ d) flags type_len payload_len (len pre + q) out
  = shift_pos (len pre) (record_tail d flags type_len payload_len q out).
Proof.
  intros Hq Ht Hl. unfold record_tail, bind, liftR, ret.
  destruct (negb (Z.land (Z.shiftr flags 3) 1 =? 0)).
  - shift_exec. exec_dispatch. cbv [shift_pos].
    first [reflexivity | do 2 f_equal; lia].
  - shift_exec. exec_dispatch. cbv [shift_pos].
    first [reflexivity | do 2 f_equal; lia].
Qed.

Lemma record_shift (q mn : Z) (out : str) :
  0 <= q ->
  parse_ndef_record (pre ++ d) (len pre + q) mn out
  = shift_pos (len pre) (parse_ndef_record d q mn out).
Proof.
  intros Hq. rewrite !parse_ndef_record_tail. unfold bind, liftR, ret, raise.
  shift_exec.
  repeat (match goal with
          | |- context [if ?c then _ else _] => destruct c
          end; try reflexivity; shift_exec).
  all: cbv beta iota zeta; rewrite <- ?Z.add_assoc;
    apply record_tail_shift; try lia; apply from_bytes_big_nonneg.
Qed.

Lemma message_loop_shift (fuel : nat) (end_ mn : Z) :
  forall q out,
    0 <= q ->
    message_loop fuel (pre ++ d) (len pre + end_) (len pre + q) mn out
    = shift_pos (len pre) (message_loop fuel d end_ q mn out).
Proof.
  induction fuel as [|fuel IH]; intros q out Hq; simpl;
    destruct (Z.ltb_spec (len pre + q) (len pre + end_));
    destruct (Z.ltb_spec q end_); try lia; try reflexivity.
  unfold bind. rewrite record_shift by lia.
  destruct (parse_ndef_record d q mn out) as [[q'|e|] o] eqn:E;
    try reflexivity.
  simpl. apply record_ok in E. apply IH. lia.
Qed.

Lemma tlv_length_shift (q : Z) (out : str) :
  0 <= q ->
  tlv_length (pre ++ d) (len pre + q) out
  = match tlv_length d q out with
    | (Ok (l, p), o) => (Ok (l, len pre + p), o)
    | x => x
    end.
Proof.
  intros Hq. unfold tlv_length, bind, liftR, ret.
  shift_exec.
  repeat (match goal with
          | |- context [if ?c then _ else _] => destruct c
          end; try reflexivity; shift_exec).
  all: cbv beta iota zeta; now rewrite <- ?Z.add_assoc.
Qed.

Lemma tlv_step_shift (mfuel : nat) (q c : Z) (out : str) :
  0 <= q ->
  tlv_step mfuel (pre ++ d) (len pre + q) c out
  = match tlv_step mfuel d q c out with
    | (Ok (Continue p c'), o) => (Ok (Continue (len pre + p) c'), o)
    | x => x
    end.
Proof.
  intros Hq. unfold tlv_step, bind, ret.
  rewrite get_byte_shift by lia.
  destruct (get_byte d q out) as [[v|e|] o] eqn:E; try reflexivity.
  apply get_byte_ok in E.
  destruct (v =? NdefTlvPadding); [now rewrite Z.add_assoc|].
  destruct (v =? NdefTlvTerminator); [reflexivity|].
  destruct ((v =? NdefTlvLockControl) || (v =? NdefTlvMemoryControl)
            || (v =? NdefTlvProprietary) || (v =? NdefTlvNdefMessage));
    [|reflexivity].
  rewrite <- Z.add_assoc. rewrite tlv_length_shift by lia.
  destruct (tlv_length d (q + 1) o) as [[[l p]|e|] o1] eqn:El;
    try reflexivity.
  apply tlv_length_ok in El.
  destruct (negb (v =? NdefTlvNdefMessage)); [now rewrite Z.add_assoc|].
  unfold parse_ndef_message. rewrite <- Z.add_assoc.
  rewrite message_loop_shift by lia.
  destruct (message_loop mfuel d (p + l) p (c + 1) o1) as [[p'|e|] o2];
    reflexivity.
Qed.

Lemma tlv_loop_shift (mfuel fuel : nat) (end_ : Z) :
  forall q c out,
    0 <= q ->
    tlv_loop mfuel fuel (pre ++ d) (len pre + end_) (len pre + q) c out
    = tlv_loop mfuel fuel d end_ q c out.
Proof.
  induction fuel as [|fuel IH]; intros q c out Hq; simpl;
    destruct (Z.ltb_spec (len pre + q) (len pre + end_));
    destruct (Z.ltb_spec q end_); try lia; try reflexivity.
  unfold bind. rewrite tlv_step_shift by lia.
  destruct (tlv_step mfuel d q c out) as [[[p c'|v]|e|] o] eqn:E;
    try reflexivity.
  apply tlv_step_ok in E. apply IH. lia.
Qed.

End ShiftDecoders.

(** ** Parsing depends only on the bytes before the cursor *)

Ltac byte_facts :=
  repeat match goal with
  | H : get_byte ?d ?q ?o = (Ok ?v, ?o') |- _ =>
    lazymatch goal with
    | _ : o' = o /\ q + 1 <= len d /\ 0 <= v < 256 |- _ => fail
    | _ => pose proof (get_byte_ok _ _ _ _ _ H)
    end
  | H : Ndef.get ?d ?q ?l = Ok ?c |- _ =>
    lazymatch goal with
    | _ : q + l <= len d |- _ => fail
    | _ => pose proof (get_inv _ _ _ _ H)
    end
  | |- context [from_bytes_big ?v] =>
    lazymatch goal with
    | _ : 0 <= from_bytes_big v |- _ => fail
    | _ => pose proof (from_bytes_big_nonneg v)
    end
  | _ : context [from_bytes_big ?v] |- _ =>
    lazymatch goal with
    | _ : 0 <= from_bytes_big v |- _ => fail
    | _ => pose proof (from_bytes_big_nonneg v)
    end
  end.

Section Prefix.

Variables (data1 data2 : bytes) (t : Z).
Hypothesis Hagree : agree_upto t data1 data2.
Hypothesis Ht : t + 1 <= len data1.
Hypothesis Hlen : len data1 <= len data2.

Lemma sub_firstn (data : bytes) (q l : Z) :
  0 <= q -> q + l <= t + 1 ->
  sub data q l = sub (firstn (Z.to_nat (t + 1)) data) q l.
Proof.
  intros Hq Hl. destruct (Z.le_gt_cases l 0).
  - now rewrite !sub_nonpos by lia.
  - unfold sub. rewrite !firstn_skipn_comm. f_equal.
    rewrite firstn_firstn. f_equal. lia.
Qed.

Lemma get_prefix (q l : Z) :
  0 <= q -> 0 <= q + l <= t + 1 ->
  Ndef.get data2 q l = Ndef.get data1 q l.
Proof.
  intros Hq Hl. rewrite !get_ok by lia. f_equal.
  rewrite (sub_firstn data2), (sub_firstn data1) by lia.
  unfold agree_upto in Hagree. now rewrite Hagree.
Qed.

Lemma get_byte_prefix (q : Z) (out : str) :
  0 <= q <= t -> get_byte data2 q out = get_byte data1 q out.
Proof.
  intros Hq. unfold get_byte, bind, liftR. now rewrite get_prefix by lia.
Qed.

Lemma get_mono (q l : Z) (c : bytes) :
  Ndef.get data1 q l = Ok c -> exists c', Ndef.get data2 q l = Ok c'.
Proof.
  intros H. apply get_inv in H. unfold Ndef.get.
  destruct (Z.gtb_spec (q + l) (len data2)); [lia|eauto].
Qed.

Ltac fwd1 :=
  cbv beta iota zeta;
  match goal with
  | H : ?c = true |- context [if ?c then _ else _] => rewrite H
  | H : ?c = false |- context [if ?c then _ else _] => rewrite H
  | H : get_byte data1 ?q ?o = _ |- context [get_byte data2 ?q ?o] =>
    rewrite (get_byte_prefix q o) by lia; rewrite H
  | H : Ndef.get data1 ?q ?l = _ |- context [Ndef.get data2 ?q ?l] =>
    first [ rewrite (get_prefix q l) by lia; rewrite H
          | let c := fresh "c" in
            let Hc := fresh "Hc" in
            destruct (get_mono _ _ _ H) as [c Hc]; rewrite Hc ]
  end.

Lemma dispatch_prefix (tnf : Z) (type_field : bytes) (q payload_len : Z)
      (out : str) (u : unit) (out' : str) :
  dispatch data1 tnf type_field q payload_len out = (Ok u, out') ->
  0 <= q -> 0 <= payload_len -> q + payload_len <= t ->
  dispatch data2 tnf type_field q payload_len out = (Ok u, out').
Proof.
  unfold dispatch, parse_ndef_uri, parse_ndef_text, parse_ndef_bt,
    parse_ndef_vcard, parse_ndef_wifi, Ndef.dump.
  intros H Hq Hl Hb.
  repeat match goal with
  | |- context [if ?c then _ else _] => destruct c
  end;
  inv_ok; byte_facts; unfold bind, liftR, ret, emit; repeat fwd1;
    cbv beta iota zeta; destruct u; reflexivity.
Qed.

End Prefix.

Section PrefixLoops.

Variables (data1 data2 : bytes) (t : Z).
Hypothesis Hagree : agree_upto t data1 data2.
Hypothesis Ht : t + 1 <= len data1.
Hypothesis Hlen : len data1 <= len data2.

Ltac fwd_rec :=
  cbv beta iota zeta;
  match goal with
  | H : ?c = true |- context [if ?c then _ else _] => rewrite H
  | H : ?c = false |- context [if ?c then _ else _] => rewrite H
  | H : get_byte data1 ?q ?o = _ |- context [get_byte data2 ?q ?o] =>
    rewrite (get_byte_prefix data1 data2 t Hagree Ht Hlen q o) by lia;
    rewrite H
  | H : Ndef.get data1 ?q ?l = _ |- context [Ndef.get data2 ?q ?l] =>
    rewrite (get_prefix data1 data2 t Hagree Ht Hlen q l) by lia; rewrite H
  | H : dispatch data1 ?a ?b ?q ?l ?o = _
    |- context [dispatch data2 ?a ?b ?q ?l ?o] =>
    rewrite (dispatch_prefix data1 data2 t Hagree Ht Hlen _ _ _ _ _ _ _ H)
      by lia
  end.

Lemma record_prefix (q mn : Z) (out : str) (q' : Z) (out' : str) :
  parse_ndef_record data1 q mn out = (Ok q', out') ->
  0 <= q -> q' <= t ->
  parse_ndef_record data2 q mn out = (Ok q', out').
Proof.
  unfold parse_ndef_record. intros H Hq Hb.
  inv_ok; byte_facts;
    pose proof (dispatch_ok _ _ _ _ _ _ _ _ ltac:(eassumption));
    unfold bind, liftR, ret, raise; repeat fwd_rec;
    cbv beta iota zeta; reflexivity.
Qed.

Lemma message_loop_prefix (fuel : nat) (end_ mn : Z) :
  forall fuel' q out q' out',
    message_loop fuel data1 end_ q mn out = (Ok q', out') ->
    0 <= q -> q' <= t -> (fuel <= fuel')%nat ->
    message_loop fuel' data2 end_ q mn out = (Ok q', out').
Proof.
  induction fuel as [|fuel IH]; intros fuel' q out q' out' H Hq Hb Hf;
    simpl in H; destruct (Z.ltb_spec q end_).
  - discriminate.
  - inv_ok. destruct fuel'; simpl; destruct (Z.ltb_spec q end_);
      try lia; reflexivity.
  - destruct fuel' as [|fuel']; [lia|]. simpl.
    destruct (Z.ltb_spec q end_); [|lia].
    apply bind_ok in H as (q1 & o1 & Hrec & H).
    pose proof (record_ok _ _ _ _ _ _ Hrec).
    pose proof (message_loop_ok _ _ _ _ _ _ _ _ H).
    rewrite (bind_eq _ _ _ q1 o1); [apply IH; auto; lia|].
    apply record_prefix; auto. lia.
  - inv_ok. destruct fuel'; simpl; destruct (Z.ltb_spec q end_);
      try lia; reflexivity.
Qed.

Lemma tlv_length_prefix (q : Z) (out : str) (l q' : Z) (out' : str) :
  tlv_length data1 q out = (Ok (l, q'), out') ->
  0 <= q -> q' <= t + 1 ->
  tlv_length data2 q out = (Ok (l, q'), out').
Proof.
  unfold tlv_length. intros H Hq Hb.
  inv_ok; byte_facts; unfold bind, liftR, ret; repeat fwd_rec;
    cbv beta iota zeta; reflexivity.
Qed.

Lemma tlv_step_prefix (mfuel mfuel' : nat) (q c : Z) (out : str)
      (q' c' : Z) (out' : str) :
  tlv_step mfuel data1 q c out = (Ok (Continue q' c'), out') ->
  0 <= q -> q' <= t -> (mfuel <= mfuel')%nat ->
  tlv_step mfuel' data2 q c out = (Ok (Continue q' c'), out').
Proof.
  unfold tlv_step. intros H Hq Hb Hf.
  apply bind_ok in H as (v & o1 & Hv & H).
  pose proof (get_byte_ok _ _ _ _ _ Hv) as Fv.
  assert (Hq' : q + 1 <= q').
  { assert (G : tlv_step mfuel data1 q c out = (Ok (Continue q' c'), out')).
    { unfold tlv_step. now rewrite (bind_eq _ _ _ _ _ Hv). }
    apply tlv_step_ok in G. lia. }
  rewrite (bind_eq _ _ _ v o1)
    by (rewrite (get_byte_prefix data1 data2 t) by (auto; lia); exact Hv).
  cbv beta iota zeta in *.
  destruct (v =? NdefTlvPadding); [exact H|].
  destruct (v =? NdefTlvTerminator); [exact H|].
  destruct ((v =? NdefTlvLockControl) || (v =? NdefTlvMemoryControl)
            || (v =? NdefTlvProprietary) || (v =? NdefTlvNdefMessage));
    [|exact H].
  apply bind_ok in H as ([l p] & o2 & Hl & H).
  pose proof (tlv_length_ok _ _ _ _ _ _ Hl) as Fl.
  destruct (negb (v =? NdefTlvNdefMessage)) eqn:Em.
  - apply ret_ok in H as [H ->]. inversion H; subst.
    rewrite (bind_eq _ _ _ (l, p) o2);
      [reflexivity|].
    apply tlv_length_prefix; auto; lia.
  - apply bind_ok in H as (p' & o3 & Hm & H).
    apply ret_ok in H as [H ->]. inversion H; subst.
    unfold parse_ndef_message in Hm.
    pose proof (message_loop_ok _ _ _ _ _ _ _ _ Hm).
    rewrite (bind_eq _ _ _ (l, p) o2);
      [|apply tlv_length_prefix; auto; lia].
    cbv beta iota zeta. unfold parse_ndef_message.
    erewrite bind_eq; [reflexivity|].
    eapply message_loop_prefix; eauto; lia.
Qed.

Lemma tlv_reach_prefix (mfuel mfuel' : nat) (end1 end2 : Z)
      (q c : Z) (out : str) (p c' : Z) (o : str) :
  tlv_reach mfuel data1 end1 q c out p c' o ->
  0 <= q -> p <= t -> end1 <= end2 -> (mfuel <= mfuel')%nat ->
  tlv_reach mfuel' data2 end2 q c out p c' o.
Proof.
  induction 1 as [|q c out q1 c1 out1 p c' o Hlt Hstep Hreach IH];
    intros Hq Hb He Hf; [constructor|].
  pose proof (tlv_step_ok _ _ _ _ _ _ _ _ Hstep).
  pose proof (tlv_reach_le _ _ _ _ _ _ _ _ _ Hreach).
  eapply treach_step; [lia| |apply IH; auto; lia].
  apply tlv_step_prefix with (mfuel := mfuel); auto. lia.
Qed.

End PrefixLoops.

(** ** Results do not depend on the budget *)

Lemma message_loop_fuel_det (f1 f2 : nat) (data : bytes) end_ pos mn out
      r1 o1 r2 o2 :
  message_loop f1 data end_ pos mn out = (r1, o1) -> r1 <> OutOfFuel ->
  message_loop f2 data end_ pos mn out = (r2, o2) -> r2 <> OutOfFuel ->
  (r1, o1) = (r2, o2).
Proof.
  intros H1 R1 H2 R2.
  apply message_loop_fuel_mono with (fuel' := Nat.max f1 f2) in H1;
    [|lia|assumption].
  apply message_loop_fuel_mono with (fuel' := Nat.max f1 f2) in H2;
    [|lia|assumption].
  congruence.
Qed.

Lemma tlv_loop_fuel_det (m1 m2 f1 f2 : nat) (data : bytes) end_ pos c out
      r1 o1 r2 o2 :
  tlv_loop m1 f1 data end_ pos c out = (r1, o1) -> r1 <> OutOfFuel ->
  tlv_loop m2 f2 data end_ pos c out = (r2, o2) -> r2 <> OutOfFuel ->
  (r1, o1) = (r2, o2).
Proof.
  intros H1 R1 H2 R2.
  apply tlv_loop_fuel_mono
    with (mfuel' := Nat.max m1 m2) (fuel' := Nat.max f1 f2) in H1;
    [|lia|lia|assumption].
  apply tlv_loop_fuel_mono
    with (mfuel' := Nat.max m1 m2) (fuel' := Nat.max f1 f2) in H2;
    [|lia|lia|assumption].
  congruence.
Qed.

(** ** Terminator TLV *)

Lemma scanner_at_prefix (data1 data2 : bytes) (t c : Z) (o : str) :
  scanner_at data1 t c o ->
  agree_upto t data1 data2 -> len data1 <= len data2 ->
  scanner_at data2 t c o.
Proof.
  intros [Hreach Hlt] Hagree Hlen. split; [|lia].
  eapply tlv_reach_prefix with (t := t); eauto; try lia.
  unfold len in *. lia.
Qed.

(** C8 as stated does not hold: in [text_overread_buffer] the scanner
    reads a terminator at index 6, after the Text sub-decoder has read the
    254 bytes located behind it ([Ndef.get] at 7 for 254 bytes succeeds);
    without these bytes the same prefix gives an error instead of "Text". *)
Lemma bytes_after_terminator_are_read :
  scanner_at text_overread_buffer 6 1 (lit "Text" ++ nl ++ nl) /\
  get_byte text_overread_buffer 6 [] = (Ok NdefTlvTerminator, []) /\
  agree_upto 6 text_overread_buffer text_overread_cut /\
  Ndef.get text_overread_buffer 7 254 = Ok (repeat x00 254) /\
  Ndef.get text_overread_cut 7 254 = Raise Ndef.OutOfBounds /\
  parse_ndef_text text_overread_buffer 6 0 []
  = (Ok tt, lit "Text" ++ nl ++ nl) /\
  parse_ndef_text text_overread_cut 6 0 [] = (Raise Ndef.OutOfBounds, []) /\
  parse_ndef text_overread_buffer = Some (lit "Text") /\
  parse_ndef text_overread_cut = Some (error_text Ndef.OutOfBounds) /\
  parse_ndef text_overread_buffer <> parse_ndef text_overread_cut.
Proof.
  repeat split; try (vm_compute; reflexivity).
  - eapply treach_step; [vm_compute; reflexivity| |apply treach_here].
    vm_compute. reflexivity.
  - vm_compute. discriminate.
Qed.

(** C8 (amended). When the scanner reads a terminator (type byte 0xFE) at
    index [t] it stops and returns the message count accumulated so far, and
    the values of the bytes at later positions do not influence the output
    text or the count: every buffer that agrees with the given one up to
    and including index [t] and is at least as long gives the same scan and
    the same text. *)
Theorem terminator_stops_scan (data1 data2 : bytes) (t c : Z) (o : str) :
  scanner_at data1 t c o ->
  get_byte data1 t o = (Ok NdefTlvTerminator, o) ->
  agree_upto t data1 data2 -> len data1 <= len data2 ->
  tlv_step (List.length data1) data1 t c o = (Ok (Return c), o) /\
  scan data1 = (Ok c, o) /\
  scan data2 = (Ok c, o) /\
  parse_ndef data2 = parse_ndef data1.
Proof.
  intros Hat Hb Hagree Hlen.
  pose proof (scanner_at_nonneg _ _ _ _ Hat) as Hp.
  assert (Hlt : t + 1 <= len data1) by (destruct Hat; lia).
  assert (Hstep : forall mf data,
             get_byte data t o = (Ok NdefTlvTerminator, o) ->
             tlv_step mf data t c o = (Ok (Return c), o)).
  { intros mf data Hd. unfold tlv_step. now rewrite (bind_eq _ _ _ _ _ Hd). }
  assert (Hb2 : get_byte data2 t o = (Ok NdefTlvTerminator, o)).
  { rewrite (get_byte_prefix data1 data2 t) by (auto; lia). exact Hb. }
  pose proof (scanner_at_prefix _ _ _ _ _ Hat Hagree Hlen) as Hat2.
  pose proof (scanner_at_return _ _ _ _ _ _ Hat (Hstep _ _ Hb)) as S1.
  pose proof (scanner_at_return _ _ _ _ _ _ Hat2 (Hstep _ _ Hb2)) as S2.
  repeat split; auto.
  unfold parse_ndef. unfold scan in S1, S2. now rewrite S1, S2.
Qed.

Lemma terminator_stops_scan_witness :
  scan scenario_uri = (Ok 1, lit "URI" ++ nl ++ lit "http://www.nfc.re" ++ nl)
  /\ parse_ndef (scenario_uri ++ [x03; xff])
     = parse_ndef scenario_uri.
Proof.
  destruct (terminator_stops_scan scenario_uri (scenario_uri ++ [x03; xff])
              13 1 (lit "URI" ++ nl ++ lit "http://www.nfc.re" ++ nl))
    as (_ & S1 & _ & P); try (vm_compute; reflexivity);
    [| |split; assumption].
  - split; [|vm_compute; reflexivity].
    eapply treach_step; [vm_compute; reflexivity| |apply treach_here].
    vm_compute. reflexivity.
  - vm_compute. discriminate.
Defined.

(** ** Short and long forms of a length *)

Lemma firstn1_skipn (data : bytes) (n : nat) (b : byte) :
  nth_error data n = Some b -> firstn 1 (skipn n data) = [b].
Proof.
  revert data. induction n as [|n IH]; intros [|a data] H; simpl in *;
    try discriminate.
  - now inversion H.
  - now apply IH.
Qed.

Lemma get_byte_nth (data : bytes) (q : Z) (b : byte) (out : str) :
  0 <= q -> nth_error data (Z.to_nat q) = Some b ->
  get_byte data q out = (Ok (byte_val b), out).
Proof.
  intros Hq Hn.
  assert (Hl : (Z.to_nat q < List.length data)%nat)
    by (apply nth_error_Some; congruence).
  unfold get_byte, bind, liftR.
  rewrite get_ok by (unfold len; lia).
  unfold sub. change (Z.to_nat 1) with 1%nat.
  now rewrite (firstn1_skipn _ _ _ Hn).
Qed.

Lemma get_byte_app (pre d : bytes) (q' q : Z) (b : byte) (out : str) :
  q' = len pre + q -> 0 <= q -> nth_error d (Z.to_nat q) = Some b ->
  get_byte (pre ++ d) q' out = (Ok (byte_val b), out).
Proof.
  intros -> Hq Hn. rewrite get_byte_shift by lia. now apply get_byte_nth.
Qed.

Lemma tlv_loop_S (mfuel fuel : nat) (data : bytes) end_ pos c :
  tlv_loop mfuel (S fuel) data end_ pos c
  = if pos <? end_ then
      ctl <- tlv_step mfuel data pos c ;;
      match ctl with
      | Continue pos' c' => tlv_loop mfuel fuel data end_ pos' c'
      | Return value => ret value
      end
    else ret c.
Proof. reflexivity. Qed.

(** One iteration of the scanner on a skipped or message TLV whose length
    field ends where [rest] begins. *)
Lemma tlv_loop_at_tlv (pre' rest : bytes) (mfuel fuel : nat)
      (p tlv_type L vp c : Z) (o : str) :
  p < len (pre' ++ rest) ->
  get_byte (pre' ++ rest) p o = (Ok tlv_type, o) ->
  tlv_type = NdefTlvLockControl \/ tlv_type = NdefTlvMemoryControl \/
  tlv_type = NdefTlvProprietary \/ tlv_type = NdefTlvNdefMessage ->
  tlv_length (pre' ++ rest) (p + 1) o = (Ok (L, vp), o) ->
  vp = len pre' ->
  tlv_loop mfuel (S fuel) (pre' ++ rest) (len (pre' ++ rest)) p c o
  = after_tlv rest mfuel fuel (tlv_type =? NdefTlvNdefMessage) L c o.
Proof.
  intros Hlt Hb Hty Hl ->.
  pose proof (tlv_length_ok _ _ _ _ _ _ Hl) as Fl.
  rewrite tlv_loop_S. destruct (Z.ltb_spec p (len (pre' ++ rest))); [|lia].
  unfold tlv_step, after_tlv, parse_ndef_message, bind, ret.
  rewrite Hb. cbv beta iota zeta.
  unfold NdefTlvPadding, NdefTlvTerminator, NdefTlvLockControl,
    NdefTlvMemoryControl, NdefTlvProprietary, NdefTlvNdefMessage in *.
  rewrite len_app.
  destruct Hty as [-> | [-> | [-> | ->]]]; cbn [Z.eqb Pos.eqb orb negb];
    rewrite Hl; cbv beta iota zeta.
  1-3: apply tlv_loop_shift; lia.
  replace (message_loop mfuel (pre' ++ rest) (len pre' + L) (len pre')
             (c + 1) o)
    with (shift_pos (len pre') (message_loop mfuel rest L 0 (c + 1) o)).
  2:{ rewrite <- message_loop_shift by lia. do 2 f_equal; lia. }
  destruct (message_loop mfuel rest L 0 (c + 1) o) as [[q|e|] o2] eqn:E.
  - apply message_loop_ok in E. cbn [shift_pos].
    apply tlv_loop_shift; lia.
  - reflexivity.
  - reflexivity.
Qed.

Lemma after_tlv_det (rest : bytes) (m1 m2 f1 f2 : nat) (b : bool) (L c : Z)
      (o : str) r1 o1 r2 o2 :
  after_tlv rest m1 f1 b L c o = (r1, o1) -> r1 <> OutOfFuel ->
  after_tlv rest m2 f2 b L c o = (r2, o2) -> r2 <> OutOfFuel ->
  (r1, o1) = (r2, o2).
Proof.
  unfold after_tlv. destruct b; [|apply tlv_loop_fuel_det].
  unfold bind. intros H1 R1 H2 R2.
  destruct (message_loop m1 rest L 0 (c + 1) o) as [ra oa] eqn:E1.
  destruct (message_loop m2 rest L 0 (c + 1) o) as [rb ob] eqn:E2.
  assert (Ra : ra <> OutOfFuel) by (intros ->; inversion H1; congruence).
  assert (Rb : rb <> OutOfFuel) by (intros ->; inversion H2; congruence).
  pose proof (message_loop_fuel_det _ _ _ _ _ _ _ _ _ _ _ E1 Ra E2 Rb) as E.
  inversion E; subst.
  destruct rb as [q|e|]; try congruence.
  eapply tlv_loop_fuel_det; eauto.
Qed.

Lemma scanner_at_loop (data : bytes) (p c : Z) (o : str) :
  scanner_at data p c o ->
  exists fuel,
    tlv_loop (List.length data) (S fuel) data (len data) p c o = scan data.
Proof.
  intros [Hreach Hlt].
  pose proof (parse_ndef_tlv_returns data) as R. fold (scan data) in R.
  destruct (scan data) as [r o1] eqn:E. simpl in R.
  unfold scan, parse_ndef_tlv in E.
  destruct (tlv_reach_loop _ _ _ _ _ _ _ _ _ Hreach _ _ _ E R) as [fuel' H].
  destruct fuel' as [|fuel']; [|eauto].
  simpl in H. destruct (Z.ltb_spec p (len data)); [|lia].
  inversion H; subst. congruence.
Qed.

Lemma firstn_app_cons (pre l : bytes) (a : byte) :
  firstn (Z.to_nat (len pre + 1)) (pre ++ a :: l) = pre ++ [a].
Proof.
  unfold len. replace (Z.to_nat (Z.of_nat (List.length pre) + 1))
    with (List.length pre + 1)%nat by lia.
  rewrite firstn_app. rewrite firstn_all2 by lia.
  replace (List.length pre + 1 - List.length pre)%nat with 1%nat by lia.
  reflexivity.
Qed.

(** The TLV half of C5. *)
Lemma tlv_long_form (pre rest : bytes) (ty Lb : byte) (c : Z) (o : str) :
  scanner_at (pre ++ ty :: Lb :: rest) (len pre) c o ->
  byte_val ty = NdefTlvLockControl \/ byte_val ty = NdefTlvMemoryControl \/
  byte_val ty = NdefTlvProprietary \/ byte_val ty = NdefTlvNdefMessage ->
  byte_val Lb < 0xFF ->
  scan (pre ++ ty :: xff :: x00 :: Lb :: rest)
  = scan (pre ++ ty :: Lb :: rest) /\
  parse_ndef (pre ++ ty :: xff :: x00 :: Lb :: rest)
  = parse_ndef (pre ++ ty :: Lb :: rest).
Proof.
  intros Hat Hty HL.
  set (short := pre ++ ty :: Lb :: rest) in *.
  set (long := pre ++ ty :: xff :: x00 :: Lb :: rest).
  pose proof (len_nonneg pre) as Hp. pose proof (len_nonneg rest) as Hr.
  pose proof (byte_val_range Lb) as HLb.
  assert (Hat' : scanner_at long (len pre) c o).
  { apply scanner_at_prefix with (data1 := short); auto.
    - unfold agree_upto, short, long. now rewrite !firstn_app_cons.
    - unfold short, long. rewrite !len_app, !len_cons. lia. }
  assert (Es : short = (pre ++ [ty; Lb]) ++ rest)
    by (unfold short; now rewrite <- app_assoc).
  assert (El : long = (pre ++ [ty; xff; x00; Lb]) ++ rest)
    by (unfold long; now rewrite <- app_assoc).
  destruct (scanner_at_loop _ _ _ _ Hat) as [fs Hs].
  destruct (scanner_at_loop _ _ _ _ Hat') as [fl Hl].
  assert (Ss : tlv_loop (List.length short) (S fs) short (len short)
                 (len pre) c o
               = after_tlv rest (List.length short) fs
                   (byte_val ty =? NdefTlvNdefMessage) (byte_val Lb) c o).
  { rewrite Es. apply tlv_loop_at_tlv with (vp := len pre + 1 + 1); auto.
    - rewrite <- Es. destruct Hat. assumption.
    - rewrite <- Es. unfold short.
      apply get_byte_app with (q := 0); [lia|lia|reflexivity].
    - rewrite <- Es. unfold short, tlv_length.
      rewrite (bind_eq _ _ _ (byte_val Lb) o)
        by (apply get_byte_app with (q := 1); [lia|lia|reflexivity]).
      destruct (Z.ltb_spec (byte_val Lb) 255); [reflexivity|lia].
    - rewrite len_app. change (len [ty; Lb]) with 2. lia. }
  assert (Sl : tlv_loop (List.length long) (S fl) long (len long)
                 (len pre) c o
               = after_tlv rest (List.length long) fl
                   (byte_val ty =? NdefTlvNdefMessage) (byte_val Lb) c o).
  { rewrite El. apply tlv_loop_at_tlv with (vp := len pre + 1 + 1 + 2); auto.
    - rewrite <- El. destruct Hat'. assumption.
    - rewrite <- El. unfold long.
      apply get_byte_app with (q := 0); [lia|lia|reflexivity].
    - rewrite <- El. unfold long, tlv_length.
      rewrite (bind_eq _ _ _ (byte_val xff) o)
        by (apply get_byte_app with (q := 1); [lia|lia|reflexivity]).
      change (byte_val xff <? 255) with false. cbv beta iota zeta.
      unfold bind, liftR, ret.
      replace (len pre + 1 + 1) with (len pre + 2) by lia.
      rewrite get_shift by lia.
      rewrite get_ok by (rewrite ?len_cons; lia).
      change (sub (ty :: xff :: x00 :: Lb :: rest) 2 2) with [x00; Lb].
      replace (from_bytes_big [x00; Lb]) with (byte_val Lb)
        by (unfold from_bytes_big; simpl fold_left;
            change (byte_val x00) with 0; lia).
      replace (len pre + 2 + 2) with (len pre + 1 + 1 + 2) by lia.
      reflexivity.
    - rewrite len_app. change (len [ty; xff; x00; Lb]) with 4. lia. }
  rewrite Hs in Ss. rewrite Hl in Sl.
  pose proof (parse_ndef_tlv_returns short) as Rs.
  pose proof (parse_ndef_tlv_returns long) as Rl.
  fold (scan short) in Rs. fold (scan long) in Rl.
  assert (E : scan long = scan short).
  { destruct (scan short) as [rs os]; destruct (scan long) as [rl ol].
    symmetry in Ss, Sl. simpl in Rs, Rl.
    exact (after_tlv_det _ _ _ _ _ _ _ _ _ _ _ _ _ Sl Rl Ss Rs). }
  split; [exact E|].
  unfold parse_ndef. fold (scan long). fold (scan short). now rewrite E.
Qed.

(** The fields of a flags byte with SR set and of the same byte with SR
    cleared. *)
Lemma sr_flag_fields (fs : byte) (vl : Z) :
  Z.testbit (byte_val fs) 4 = true -> vl = byte_val fs - 16 ->
  Z.land (Z.shiftr vl 5) 1 = Z.land (Z.shiftr (byte_val fs) 5) 1 /\
  Z.land (Z.shiftr vl 4) 1 = 0 /\
  Z.land (Z.shiftr (byte_val fs) 4) 1 = 1 /\
  Z.land (Z.shiftr vl 3) 1 = Z.land (Z.shiftr (byte_val fs) 3) 1 /\
  Z.land vl 7 = Z.land (byte_val fs) 7.
Proof.
  intros H ->.
  destruct fs; vm_compute in H; try discriminate H;
    vm_compute; repeat split; reflexivity.
Qed.

Lemma shift_pos_shift_pos (a b : Z) (x : result Z * str) :
  shift_pos a (shift_pos b x) = shift_pos (a + b) x.
Proof.
  destruct x as [[q|e|] o]; simpl; try reflexivity. do 2 f_equal. lia.
Qed.

(** The record half of C5, for a record at the start of the buffer. *)
Lemma record_long_form_0 (rest : bytes) (fs fl tl pl : byte) (mn : Z)
      (out : str) :
  Z.testbit (byte_val fs) 4 = true ->
  byte_val fl = byte_val fs - 16 ->
  parse_ndef_record (fl :: tl :: x00 :: x00 :: x00 :: pl :: rest) 0 mn out
  = shift_pos 3 (parse_ndef_record (fs :: tl :: pl :: rest) 0 mn out).
Proof.
  intros Hsr Hfl.
  destruct (sr_flag_fields fs (byte_val fl) Hsr Hfl)
    as (Hcf & Hsl & Hss & Hil & Htnf).
  pose proof (len_nonneg rest) as Hr.
  pose proof (byte_val_range tl) as Htl.
  pose proof (byte_val_range pl) as Hpl.
  rewrite !parse_ndef_record_tail.
  rewrite (bind_eq _ _ _ (byte_val fl) out)
    by (apply get_byte_nth; [lia|reflexivity]).
  rewrite (bind_eq _ _ _ (byte_val fs) out)
    by (apply get_byte_nth; [lia|reflexivity]).
  rewrite Hcf, Hsl, Hss.
  destruct (negb (Z.land (Z.shiftr (byte_val fs) 5) 1 =? 0)); [reflexivity|].
  rewrite (bind_eq _ _ _ (byte_val tl) out)
    by (apply get_byte_nth; [lia|reflexivity]).
  rewrite (bind_eq _ _ _ (byte_val tl) out)
    by (apply get_byte_nth; [lia|reflexivity]).
  change (negb (0 =? 0)) with false. change (negb (1 =? 0)) with true.
  cbv beta iota zeta.
  rewrite (bind_eq _ _ _ (byte_val pl, 0 + 1 + 1 + 4) out).
  2:{ unfold bind, liftR, ret.
      rewrite get_ok by (rewrite ?len_cons; lia).
      change (sub (fl :: tl :: x00 :: x00 :: x00 :: pl :: rest) (0 + 1 + 1) 4)
        with [x00; x00; x00; pl].
      replace (from_bytes_big [x00; x00; x00; pl]) with (byte_val pl)
        by (unfold from_bytes_big; simpl fold_left;
            change (byte_val x00) with 0; lia).
      reflexivity. }
  rewrite (bind_eq _ _ _ (byte_val pl, 0 + 1 + 1 + 1) out).
  2:{ rewrite (bind_eq _ _ _ (byte_val pl) out)
        by (apply get_byte_nth; [lia|reflexivity]).
      reflexivity. }
  cbv beta iota zeta.
  replace (record_tail (fl :: tl :: x00 :: x00 :: x00 :: pl :: rest)
             (byte_val fl))
    with (record_tail (fl :: tl :: x00 :: x00 :: x00 :: pl :: rest)
            (byte_val fs))
    by (unfold record_tail; now rewrite Hil, Htnf).
  change (fl :: tl :: x00 :: x00 :: x00 :: pl :: rest)
    with ([fl; tl; x00; x00; x00; pl] ++ rest).
  change (fs :: tl :: pl :: rest) with ([fs; tl; pl] ++ rest).
  change (0 + 1 + 1 + 4) with (len [fl; tl; x00; x00; x00; pl] + 0).
  change (0 + 1 + 1 + 1) with (len [fs; tl; pl] + 0).
  rewrite !record_tail_shift by lia.
  rewrite shift_pos_shift_pos. reflexivity.
Qed.

Lemma record_long_form (pre rest : bytes) (fs fl tl pl : byte) (mn : Z)
      (out : str) :
  Z.testbit (byte_val fs) 4 = true ->
  byte_val fl = byte_val fs - 16 ->
  parse_ndef_record (pre ++ fl :: tl :: x00 :: x00 :: x00 :: pl :: rest)
    (len pre) mn out
  = shift_pos 3
      (parse_ndef_record (pre ++ fs :: tl :: pl :: rest) (len pre) mn out).
Proof.
  intros Hsr Hfl.
  replace (len pre) with (len pre + 0) by lia.
  rewrite !record_shift by lia.
  rewrite (record_long_form_0 rest fs fl tl pl mn out Hsr Hfl).
  rewrite !shift_pos_shift_pos. f_equal. lia.
Qed.

(** C5 as stated does not hold for a TLV whose bytes an over-running record
    consumes: in [lock_short_buffer] the NdefMessage TLV declares one value
    byte, the record decoded there takes the type and length bytes of the
    following LockControl TLV as its type length and payload length, and
    the long form of that length changes the result of the parse. *)
Lemma long_form_changes_overrun_record :
  tlv_length lock_short_buffer 1 [] = (Ok (1, 2), []) /\
  byte_val x01 = NdefTlvLockControl /\
  byte_val x02 < 0xFF /\
  parse_ndef_record lock_short_buffer 2 1 []
  = (Ok 8, lit "URI" ++ nl ++ lit "http://www." ++ [REPL] ++ nl) /\
  parse_ndef lock_short_buffer
  = Some (lit "URI" ++ nl ++ lit "http://www." ++ [REPL]) /\
  parse_ndef lock_long_buffer = Some (error_text Ndef.OutOfBounds) /\
  parse_ndef lock_long_buffer <> parse_ndef lock_short_buffer.
Proof.
  repeat split; try (vm_compute; reflexivity).
  vm_compute. discriminate.
Qed.

(** C5 (amended). Short and long forms decode identically.  (1) When the
    scanner arrives at a TLV of type LockControl, MemoryControl, Proprietary
    or NdefMessage whose length byte [Lb] is below 0xFF, replacing that byte
    by 0xFF followed by the same length as 2 bytes big-endian, all other
    bytes unchanged, gives the same message count, the same accumulated
    output (or the same error) and the same text.  (2) A record with SR=1
    and the same record with SR=0 and its payload length written as 4 bytes
    big-endian decode identically: same output or error, and the cursor
    after the record differs by exactly the 3 added length bytes. *)
Theorem long_form_equivalence (pre rest : bytes) :
  (forall (ty Lb : byte) (c : Z) (o : str),
      scanner_at (pre ++ ty :: Lb :: rest) (len pre) c o ->
      byte_val ty = NdefTlvLockControl \/ byte_val ty = NdefTlvMemoryControl \/
      byte_val ty = NdefTlvProprietary \/ byte_val ty = NdefTlvNdefMessage ->
      byte_val Lb < 0xFF ->
      scan (pre ++ ty :: xff :: x00 :: Lb :: rest)
      = scan (pre ++ ty :: Lb :: rest) /\
      parse_ndef (pre ++ ty :: xff :: x00 :: Lb :: rest)
      = parse_ndef (pre ++ ty :: Lb :: rest)) /\
  (forall (fs fl tl pl : byte) (mn : Z) (out : str),
      Z.testbit (byte_val fs) 4 = true ->
      byte_val fl = byte_val fs - 16 ->
      parse_ndef_record (pre ++ fl :: tl :: x00 :: x00 :: x00 :: pl :: rest)
        (len pre) mn out
      = shift_pos 3
          (parse_ndef_record (pre ++ fs :: tl :: pl :: rest)
             (len pre) mn out)).
Proof.
  split.
  - intros. now apply tlv_long_form with (c := c) (o := o).
  - intros. now apply record_long_form.
Qed.

Lemma long_form_equivalence_witness :
  parse_ndef ([x00] ++ x03 :: xff :: x00 :: x0b
                :: [xd1; x01; x07; x55; x01; x6e; x66; x63; x2e; x72; x65; xfe])
  = parse_ndef ([x00] ++ x03 :: x0b
                  :: [xd1; x01; x07; x55; x01; x6e; x66; x63; x2e; x72; x65; xfe])
  /\
  parse_ndef_record
    ([x00] ++ xc1 :: x01 :: x00 :: x00 :: x00 :: x07
       :: [x55; x01; x6e; x66; x63; x2e; x72; x65; xfe]) (len [x00]) 1 []
  = shift_pos 3
      (parse_ndef_record
         ([x00] ++ xd1 :: x01 :: x07
            :: [x55; x01; x6e; x66; x63; x2e; x72; x65; xfe]) (len [x00]) 1 []).
Proof.
  split.
  - apply (proj1 (long_form_equivalence [x00]
             [xd1; x01; x07; x55; x01; x6e; x66; x63; x2e; x72; x65; xfe])
             x03 x0b 0 []).
    + split; [|vm_compute; reflexivity].
      eapply treach_step; [vm_compute; reflexivity| |apply treach_here].
      vm_compute. reflexivity.
    + right; right; right. reflexivity.
    + vm_compute. reflexivity.
  - apply (proj2 (long_form_equivalence [x00]
             [x55; x01; x6e; x66; x63; x2e; x72; x65; xfe])
             xd1 xc1 x01 x07 1 []).
    + vm_compute. reflexivity.
    + vm_compute. reflexivity.
Defined.

(** * Further properties of the decoder *)

Lemma parse_ndef_render (data : bytes) : parse_ndef data = render (scan data).
Proof. reflexivity. Qed.

(** ** Padding *)

Lemma scan_padding_cons (d : bytes) : scan (x00 :: d) = scan d.
Proof.
  pose proof (parse_ndef_tlv_returns (x00 :: d)) as R1.
  pose proof (parse_ndef_tlv_returns d) as R2.
  fold (scan (x00 :: d)) in R1. fold (scan d) in R2.
  pose proof (len_nonneg d) as Hd.
  assert (E : scan (x00 :: d)
              = tlv_loop (List.length (x00 :: d)) (List.length d) d
                  (len d) 0 0 []).
  { unfold scan at 1, parse_ndef_tlv.
    change (List.length (x00 :: d)) with (S (List.length d)) at 2.
    rewrite tlv_loop_S.
    destruct (Z.ltb_spec 0 (0 + len (x00 :: d)));
      [|rewrite len_cons in *; lia].
    assert (Hs : tlv_step (List.length (x00 :: d)) (x00 :: d) 0 0 []
                 = (Ok (Continue (0 + 1) 0), [])).
    { unfold tlv_step.
      rewrite (bind_eq _ _ _ (byte_val x00) [])
        by (apply get_byte_nth; [lia|reflexivity]).
      reflexivity. }
    rewrite (bind_eq _ _ _ _ _ Hs).
    change (x00 :: d) with ([x00] ++ d).
    change (0 + 1) with (len [x00] + 0).
    replace (0 + len ([x00] ++ d)) with (len [x00] + len d)
      by (rewrite len_app; lia).
    apply tlv_loop_shift. lia. }
  rewrite E in *.
  destruct (tlv_loop (List.length (x00 :: d)) (List.length d) d (len d) 0 0 [])
    as [r1 o1] eqn:E1.
  destruct (scan d) as [r2 o2] eqn:E2. unfold scan, parse_ndef_tlv in E2.
  simpl in R1, R2.
  exact (tlv_loop_fuel_det _ _ _ _ _ _ _ _ _ _ _ _ _ E1 R1 E2 R2).
Qed.

Lemma scan_terminator_first (rest : bytes) : scan (xfe :: rest) = (Ok 0, []).
Proof.
  pose proof (len_nonneg rest) as Hr.
  unfold scan, parse_ndef_tlv.
  change (List.length (xfe :: rest)) with (S (List.length rest)) at 2.
  rewrite tlv_loop_S.
  destruct (Z.ltb_spec 0 (0 + len (xfe :: rest)));
    [|rewrite len_cons in *; lia].
  assert (Hs : tlv_step (List.length (xfe :: rest)) (xfe :: rest) 0 0 []
               = (Ok (Return 0), [])).
  { unfold tlv_step.
    rewrite (bind_eq _ _ _ (byte_val xfe) [])
      by (apply get_byte_nth; [lia|reflexivity]).
    reflexivity. }
  now rewrite (bind_eq _ _ _ _ _ Hs).
Qed.

(** X1. Leading padding bytes (0x00) are skipped without any effect: a
    buffer gives the same count, output and text with or without them.  In
    particular padding followed by a terminator, or padding alone, parses to
    zero messages. *)
Theorem padding_is_skipped (n : nat) (d rest : bytes) :
  scan (repeat x00 n ++ d) = scan d /\
  parse_ndef (repeat x00 n ++ d) = parse_ndef d /\
  parse_ndef (repeat x00 n ++ xfe :: rest)
  = Some (lit "No NDEF messages found.") /\
  parse_ndef (repeat x00 n) = Some (lit "No NDEF messages found.").
Proof.
  assert (H : forall d', scan (repeat x00 n ++ d') = scan d').
  { intros d'. induction n as [|n IH]; [reflexivity|].
    simpl. now rewrite scan_padding_cons. }
  repeat split.
  - apply H.
  - now rewrite !parse_ndef_render, H.
  - now rewrite parse_ndef_render, H, scan_terminator_first.
  - rewrite <- (app_nil_r (repeat x00 n)). rewrite parse_ndef_render, H.
    reflexivity.
Qed.

(** ** Skipped TLVs and the end of the buffer *)

Lemma scan_at_end (data : bytes) (p c : Z) (o : str) :
  tlv_reach (List.length data) data (len data) 0 0 [] p c o ->
  len data <= p ->
  scan data = (Ok c, o).
Proof.
  intros Hreach Hp.
  pose proof (parse_ndef_tlv_returns data) as R. fold (scan data) in R.
  destruct (scan data) as [r o1] eqn:E. simpl in R.
  unfold scan, parse_ndef_tlv in E.
  destruct (tlv_reach_loop _ _ _ _ _ _ _ _ _ Hreach _ _ _ E R) as [fuel' H].
  rewrite <- H.
  destruct fuel'; simpl; destruct (Z.ltb_spec p (len data));
    try lia; reflexivity.
Qed.

Lemma tlv_reach_snoc (mfuel : nat) (data : bytes) end_ pos c out p c' o
      q c'' o' :
  tlv_reach mfuel data end_ pos c out p c' o ->
  p < end_ ->
  tlv_step mfuel data p c' o = (Ok (Continue q c''), o') ->
  tlv_reach mfuel data end_ pos c out q c'' o'.
Proof.
  intros Hreach Hlt Hs.
  induction Hreach as [pos c0 out|pos c0 out pos1 c1 out1 p c' o Hlt' Hstep _ IH].
  - eapply treach_step; [exact Hlt|exact Hs|apply treach_here].
  - eapply treach_step; [exact Hlt'|exact Hstep|]. now apply IH.
Qed.

(** X2. Reaching the end of the buffer without a terminator is not an
    error: once the cursor of the scanner is at or past the end, the scan
    returns the count and the output accumulated so far. *)
Theorem end_of_buffer_returns_count (data : bytes) (p c : Z) (o : str) :
  tlv_reach (List.length data) data (len data) 0 0 [] p c o ->
  len data <= p ->
  scan data = (Ok c, o) /\ parse_ndef data = render (Ok c, o).
Proof.
  intros Hreach Hp.
  pose proof (scan_at_end _ _ _ _ Hreach Hp) as Hs.
  split; [exact Hs|]. now rewrite parse_ndef_render, Hs.
Qed.

Lemma end_of_buffer_returns_count_witness :
  scan [x03; x06; xd1; x01; x02; x54; x00; x58]
  = (Ok 1, lit "Text" ++ nl ++ lit "X" ++ nl) /\
  parse_ndef [x03; x06; xd1; x01; x02; x54; x00; x58]
  = render (Ok 1, lit "Text" ++ nl ++ lit "X" ++ nl).
Proof.
  apply (end_of_buffer_returns_count
           [x03; x06; xd1; x01; x02; x54; x00; x58] 8 1).
  - eapply treach_step; [vm_compute; reflexivity| |apply treach_here].
    vm_compute. reflexivity.
  - vm_compute. discriminate.
Defined.

(** X3. A LockControl, MemoryControl or Proprietary TLV is skipped by its
    declared length alone: the step leaves the count and the output as they
    are and puts the cursor behind the declared value without reading it.
    So a value that is cut short by the end of the buffer is not an error:
    the scan ends there with the count and output accumulated so far. *)
Theorem skipped_tlv_is_not_read (data : bytes) (p c : Z) (o : str)
        (tlv_type L vp : Z) :
  scanner_at data p c o ->
  get_byte data p o = (Ok tlv_type, o) ->
  tlv_type = NdefTlvLockControl \/ tlv_type = NdefTlvMemoryControl \/
  tlv_type = NdefTlvProprietary ->
  tlv_length data (p + 1) o = (Ok (L, vp), o) ->
  tlv_step (List.length data) data p c o = (Ok (Continue (vp + L) c), o) /\
  (len data <= vp + L -> scan data = (Ok c, o)).
Proof.
  intros Hat Hb Hty Hl.
  assert (Hs : tlv_step (List.length data) data p c o
               = (Ok (Continue (vp + L) c), o)).
  { unfold tlv_step. rewrite (bind_eq _ _ _ _ _ Hb).
    unfold NdefTlvPadding, NdefTlvTerminator, NdefTlvLockControl,
      NdefTlvMemoryControl, NdefTlvProprietary, NdefTlvNdefMessage in *.
    destruct Hty as [-> | [-> | ->]]; cbn [Z.eqb Pos.eqb orb negb];
      now rewrite (bind_eq _ _ _ _ _ Hl). }
  split; [exact Hs|]. intros Hend.
  destruct Hat as [Hreach Hlt].
  apply scan_at_end with (p := vp + L); [|exact Hend].
  eapply tlv_reach_snoc; eauto.
Qed.

Lemma skipped_tlv_is_not_read_witness :
  tlv_step (List.length truncated_skip_buffer) truncated_skip_buffer 8 1
    (lit "Text" ++ nl ++ lit "X" ++ nl)
  = (Ok (Continue (10 + 16) 1), lit "Text" ++ nl ++ lit "X" ++ nl) /\
  (len truncated_skip_buffer <= 10 + 16 ->
   scan truncated_skip_buffer = (Ok 1, lit "Text" ++ nl ++ lit "X" ++ nl)).
Proof.
  apply (skipped_tlv_is_not_read truncated_skip_buffer 8 1
           (lit "Text" ++ nl ++ lit "X" ++ nl) 0xFD 16 10).
  - split; [|vm_compute; reflexivity].
    eapply treach_step; [vm_compute; reflexivity| |apply treach_here].
    vm_compute. reflexivity.
  - vm_compute. reflexivity.
  - right; right. reflexivity.
  - vm_compute. reflexivity.
Defined.

(** ** The accumulator *)

Lemma framed_ret {A} (a : A) : framed (ret a).
Proof. intros out. unfold ret. simpl. now rewrite app_nil_r. Qed.

Lemma framed_raise {A} (e : exn) : framed (@raise A e).
Proof. intros out. unfold raise. simpl. now rewrite app_nil_r. Qed.

Lemma framed_out_of_fuel {A} : framed (@out_of_fuel A).
Proof. intros out. unfold out_of_fuel. simpl. now rewrite app_nil_r. Qed.

Lemma framed_liftR {A} (r : result A) : framed (liftR r).
Proof. intros out. unfold liftR. simpl. now rewrite app_nil_r. Qed.

Lemma framed_emit (s : str) : framed (emit s).
Proof. intros out. reflexivity. Qed.

Lemma framed_bind {A B} (m : M A) (k : A -> M B) :
  framed m -> (forall a, framed (k a)) -> framed (bind m k).
Proof.
  intros Hm Hk out. unfold bind. rewrite (Hm out).
  destruct (m []) as [[a|e|] s1]; simpl; try reflexivity.
  rewrite (Hk a (out ++ s1)), (Hk a s1). simpl. now rewrite app_assoc.
Qed.

Lemma framed_get_byte (data : bytes) pos : framed (get_byte data pos).
Proof.
  unfold get_byte. apply framed_bind; intros; apply framed_liftR.
Qed.

Ltac framed_tac :=
  repeat first
    [ apply framed_ret | apply framed_raise | apply framed_emit
    | apply framed_liftR | apply framed_get_byte | apply framed_out_of_fuel
    | apply framed_bind; [|intros]
    | match goal with
      | |- framed (if ?c then _ else _) => destruct c
      | |- framed (let '(_, _) := ?p in _) => destruct p
      | |- framed (match ?c with Continue _ _ => _ | Return _ => _ end) =>
        destruct c
      end ].

Lemma framed_dispatch (data : bytes) tnf type_field pos payload_len :
  framed (dispatch data tnf type_field pos payload_len).
Proof.
  unfold dispatch, parse_ndef_uri, parse_ndef_text, parse_ndef_bt,
    parse_ndef_vcard, parse_ndef_wifi, Ndef.dump.
  framed_tac.
Qed.

Lemma framed_record (data : bytes) pos mn :
  framed (parse_ndef_record data pos mn).
Proof.
  unfold parse_ndef_record. framed_tac; apply framed_dispatch.
Qed.

Lemma framed_message_loop (fuel : nat) (data : bytes) end_ mn :
  forall pos, framed (message_loop fuel data end_ pos mn).
Proof.
  induction fuel as [|fuel IH]; intros pos; simpl; destruct (pos <? end_);
    try apply framed_ret; try apply framed_out_of_fuel.
  apply framed_bind; [apply framed_record | intros; apply IH].
Qed.

Lemma framed_tlv_step (mfuel : nat) (data : bytes) pos c :
  framed (tlv_step mfuel data pos c).
Proof.
  unfold tlv_step, tlv_length, parse_ndef_message.
  framed_tac; apply framed_message_loop.
Qed.

Lemma framed_tlv_loop (mfuel fuel : nat) (data : bytes) end_ :
  forall pos c, framed (tlv_loop mfuel fuel data end_ pos c).
Proof.
  induction fuel as [|fuel IH]; intros pos c; simpl; destruct (pos <? end_);
    try apply framed_ret; try apply framed_out_of_fuel.
  apply framed_bind; [apply framed_tlv_step|].
  intros [pos' c'|v]; [apply IH | apply framed_ret].
Qed.

(** X4. The decoder only ever appends to the output accumulator and never
    reads it: running the record decoder, the message decoder or the TLV
    scanner with [out] already accumulated gives the same result as running
    it with an empty accumulator, and [out] followed by the text that run
    produces. *)
Theorem output_is_append_only (data : bytes) (out : str) :
  (forall pos mn,
      parse_ndef_record data pos mn out
      = (fst (parse_ndef_record data pos mn []),
         out ++ snd (parse_ndef_record data pos mn []))) /\
  (forall fuel pos length mn,
      parse_ndef_message fuel data pos length mn out
      = (fst (parse_ndef_message fuel data pos length mn []),
         out ++ snd (parse_ndef_message fuel data pos length mn []))) /\
  (forall fuel pos length already_parsed,
      parse_ndef_tlv fuel data pos length already_parsed out
      = (fst (parse_ndef_tlv fuel data pos length already_parsed []),
         out ++ snd (parse_ndef_tlv fuel data pos length already_parsed []))).
Proof.
  repeat split; intros.
  - apply framed_record.
  - unfold parse_ndef_message. apply framed_message_loop.
  - unfold parse_ndef_tlv. apply framed_tlv_loop.
Qed.

Lemma message_loop_raise_reach (fuel : nat) (data : bytes) end_ mn :
  forall pos out e o,
    message_loop fuel data end_ pos mn out = (Raise e, o) ->
    exists rp,
      message_reach data end_ mn pos out rp o /\ rp < end_ /\
      parse_ndef_record data rp mn o = (Raise e, o).
Proof.
  induction fuel as [|fuel IH]; intros pos out e o H; simpl in H;
    destruct (Z.ltb_spec pos end_); try discriminate H.
  apply bind_raise_inv in H as [H | (q1 & o1 & Hrec & H)].
  - pose proof (record_raise_state _ _ _ _ _ _ H). subst o.
    exists pos. split; [apply mreach_here|]. auto.
  - destruct (IH _ _ _ _ H) as (rp & Hreach & Hlt & Hr).
    exists rp. split; [|auto]. eapply mreach_step; eauto.
Qed.

(** X5. A record that fails contributes no text: when the record decoder
    raises, the accumulator is as it was when the decoder was entered; and
    when the message decoder fails, it does so in a record started inside
    its range, with the accumulator holding exactly the text of the records
    decoded completely before. *)
Theorem failing_record_leaves_no_text (data : bytes) :
  (forall pos mn out e o,
      parse_ndef_record data pos mn out = (Raise e, o) -> o = out) /\
  (forall fuel pos length mn out e o,
      parse_ndef_message fuel data pos length mn out = (Raise e, o) ->
      exists rp,
        message_reach data (pos + length) mn pos out rp o /\
        rp < pos + length /\
        parse_ndef_record data rp mn o = (Raise e, o)).
Proof.
  split.
  - intros *. apply record_raise_state.
  - intros *. unfold parse_ndef_message. apply message_loop_raise_reach.
Qed.

Lemma failing_record_leaves_no_text_witness :
  exists rp,
    message_reach chunked_second_buffer (2 + 9) 1 2 [] rp
      (lit "URI" ++ nl ++ lit "http://www.A" ++ nl) /\
    rp < 2 + 9 /\
    parse_ndef_record chunked_second_buffer rp 1
      (lit "URI" ++ nl ++ lit "http://www.A" ++ nl)
    = (Raise Chunked, lit "URI" ++ nl ++ lit "http://www.A" ++ nl).
Proof.
  apply (proj2 (failing_record_leaves_no_text chunked_second_buffer)
           11%nat 2 9 1 [] Chunked).
  vm_compute. reflexivity.
Defined.

(** ** Rendering of payloads *)

Lemma printable_ascii (chunk : bytes) :
  Ndef.printable chunk = true -> Forall (fun b => byte_val b < 0x80) chunk.
Proof.
  unfold Ndef.printable. intros H. apply Forall_forall. intros b Hb.
  rewrite forallb_forall in H. specialize (H b Hb). cbv beta zeta in H. lia.
Qed.

Lemma dump_in_bounds (data : bytes) (prefix : str) (pos length : Z)
      (force_hex : bool) (out : str) :
  0 <= pos -> 0 <= length -> pos + length <= len data ->
  Ndef.dump data prefix pos length force_hex out
  = (Ok tt,
     out ++ match prefix with [] => [] | _ => prefix ++ lit ": " end
         ++ (if negb force_hex && Ndef.printable (sub data pos length)
             then map byte_val (sub data pos length)
             else hex_str (sub data pos length))
         ++ nl).
Proof.
  intros Hp Hl Hb. unfold Ndef.dump, bind, liftR.
  rewrite get_ok by lia.
  destruct (negb force_hex && Ndef.printable (sub data pos length)) eqn:E;
    unfold emit; rewrite <- ?app_assoc; [|reflexivity].
  apply andb_true_iff in E as [_ E].
  now rewrite (decode_utf8_ascii _ (printable_ascii _ E)).
Qed.

(** X6. The generic dump: a range inside the buffer is rendered on one line
    after the label, as literal text (one character per byte, the byte value
    as code point) exactly when hex is not forced and every byte is
    printable ASCII (0x20-0x7E), tab, LF or CR, and as space-separated
    upper-case hex otherwise; a range past the end of the buffer raises the
    out-of-bounds error and appends nothing. *)
Theorem dump_renders_text_or_hex (data : bytes) (prefix : str)
        (pos length : Z) (force_hex : bool) (out : str) :
  0 <= pos -> 0 <= length ->
  (pos + length <= len data ->
   Ndef.dump data prefix pos length force_hex out
   = (Ok tt,
      out ++ match prefix with [] => [] | _ => prefix ++ lit ": " end
          ++ (if negb force_hex && Ndef.printable (sub data pos length)
              then map byte_val (sub data pos length)
              else hex_str (sub data pos length))
          ++ nl)) /\
  (pos + length > len data ->
   Ndef.dump data prefix pos length force_hex out
   = (Raise Ndef.OutOfBounds, out)).
Proof.
  intros Hp Hl. split; intros Hb.
  - now apply dump_in_bounds.
  - unfold Ndef.dump, bind, liftR. now rewrite get_raise by lia.
Qed.

Lemma dump_renders_text_or_hex_witness :
  (0 + 3 <= len [x41; x7f; x0a] ->
   Ndef.dump [x41; x7f; x0a] (lit "Unknown Media") 0 3 false []
   = (Ok tt,
      [] ++ lit "Unknown Media" ++ lit ": "
         ++ (if negb false && Ndef.printable (sub [x41; x7f; x0a] 0 3)
             then map byte_val (sub [x41; x7f; x0a] 0 3)
             else hex_str (sub [x41; x7f; x0a] 0 3))
         ++ nl)) /\
  (0 + 3 > len [x41; x7f; x0a] ->
   Ndef.dump [x41; x7f; x0a] (lit "Unknown Media") 0 3 false []
   = (Raise Ndef.OutOfBounds, [])).
Proof.
  apply (dump_renders_text_or_hex [x41; x7f; x0a] (lit "Unknown Media")
           0 3 false []); lia.
Defined.

(** X7. [print_value] never fails and appends exactly one line: the label,
    ": ", the value and a newline, the value being rendered as [dump]
    renders a range (text only if hex is not forced and all bytes are
    printable, hex otherwise).  Unlike [dump] it writes ": " also after an
    empty label. *)
Theorem print_value_renders_text_or_hex (prefix : str) (buf : bytes)
        (force_hex : bool) (out : str) :
  Ndef.print_value prefix buf force_hex out
  = (Ok tt,
     out ++ prefix ++ lit ": "
         ++ (if negb force_hex && Ndef.printable buf
             then map byte_val buf else hex_str buf)
         ++ nl) /\
  (prefix <> [] ->
   Ndef.dump buf prefix 0 (len buf) force_hex out
   = Ndef.print_value prefix buf force_hex out) /\
  Ndef.dump buf [] 0 (len buf) force_hex out
  <> Ndef.print_value [] buf force_hex out.
Proof.
  assert (Hsub : sub buf 0 (len buf) = buf).
  { unfold sub, len. rewrite Nat2Z.id. simpl. apply firstn_all. }
  assert (E : forall prefix,
             Ndef.print_value prefix buf force_hex out
             = (Ok tt,
                out ++ prefix ++ lit ": "
                    ++ (if negb force_hex && Ndef.printable buf
                        then map byte_val buf else hex_str buf)
                    ++ nl)).
  { intros pf. unfold Ndef.print_value.
    destruct (negb force_hex && Ndef.printable buf) eqn:E;
      unfold emit; rewrite <- ?app_assoc; [|reflexivity].
    apply andb_true_iff in E as [_ E].
    now rewrite (decode_utf8_ascii _ (printable_ascii _ E)). }
  pose proof (len_nonneg buf) as Hn.
  split; [apply E|split].
  - intros Hne. rewrite E.
    rewrite dump_in_bounds by lia. rewrite Hsub.
    destruct prefix; [congruence|]. rewrite <- ?app_assoc. reflexivity.
  - rewrite dump_in_bounds by lia. rewrite Hsub, E.
    intros H. inversion H as [H1]. apply app_inv_head in H1.
    apply (f_equal (@List.length Z)) in H1.
    rewrite !length_app in H1. simpl in H1. rewrite length_app in H1.
    simpl in H1. lia.
Qed.

Lemma print_value_renders_text_or_hex_witness :
  Ndef.dump [x41; x42] (lit "Id") 0 (len [x41; x42]) false []
  = Ndef.print_value (lit "Id") [x41; x42] false [].
Proof.
  apply (proj1 (proj2 (print_value_renders_text_or_hex (lit "Id") [x41; x42]
                         false []))).
  vm_compute. discriminate.
Defined.

(** ** Hex rendering *)

Lemma byte_val_inj (b1 b2 : byte) : byte_val b1 = byte_val b2 -> b1 = b2.
Proof.
  unfold byte_val. intros H. apply N2Z.inj in H.
  pose proof (Byte.of_to_N b1) as H1. rewrite H, Byte.of_to_N in H1.
  now inversion H1.
Qed.

Lemma hex_digit_inj (d1 d2 : Z) :
  0 <= d1 < 16 -> 0 <= d2 < 16 -> hex_digit d1 = hex_digit d2 -> d1 = d2.
Proof.
  unfold hex_digit. intros H1 H2.
  destruct (Z.ltb_spec d1 10), (Z.ltb_spec d2 10); lia.
Qed.

Lemma hex2_inj (b1 b2 : byte) : hex2 b1 = hex2 b2 -> b1 = b2.
Proof.
  unfold hex2. intros H. inversion H as [[Hh Hl]].
  pose proof (byte_val_range b1). pose proof (byte_val_range b2).
  apply hex_digit_inj in Hh;
    [|split; [apply Z.div_pos|apply Z.div_lt_upper_bound]; lia ..].
  apply hex_digit_inj in Hl; [|apply Z.mod_pos_bound; lia ..].
  apply byte_val_inj.
  rewrite (Z.div_mod (byte_val b1) 16), (Z.div_mod (byte_val b2) 16) by lia.
  now rewrite Hh, Hl.
Qed.

Lemma hex_str_cons2 (b c : byte) (r : bytes) :
  hex_str (b :: c :: r) = hex2 b ++ lit " " ++ hex_str (c :: r).
Proof. reflexivity. Qed.

(** X8. The hex rendering of a byte string loses nothing and has a fixed
    shape: different byte strings have different renderings, and [n > 0]
    bytes are rendered on [3n - 1] characters (two hex digits per byte and a
    space between neighbours), no bytes on none. *)
Theorem hex_str_is_faithful (c1 c2 : bytes) :
  (hex_str c1 = hex_str c2 -> c1 = c2) /\
  len (hex_str c1) = (if len c1 =? 0 then 0 else 3 * len c1 - 1).
Proof.
  split.
  - revert c2. induction c1 as [|b1 r1 IH]; intros [|b2 r2] H.
    + reflexivity.
    + destruct r2; discriminate H.
    + destruct r1; discriminate H.
    + destruct r1 as [|a1 r1], r2 as [|a2 r2].
      * f_equal. now apply hex2_inj.
      * discriminate H.
      * discriminate H.
      * rewrite !hex_str_cons2 in H.
        change (hex2 b1 ++ lit " " ++ hex_str (a1 :: r1))
          with (hex_digit (byte_val b1 / 16) :: hex_digit (byte_val b1 mod 16)
                  :: 32 :: hex_str (a1 :: r1)) in H.
        change (hex2 b2 ++ lit " " ++ hex_str (a2 :: r2))
          with (hex_digit (byte_val b2 / 16) :: hex_digit (byte_val b2 mod 16)
                  :: 32 :: hex_str (a2 :: r2)) in H.
        inversion H as [[Hh Hl Ht]].
        f_equal; [|now apply IH].
        apply hex2_inj. unfold hex2. now rewrite Hh, Hl.
  - induction c1 as [|b1 r1 IH]; [reflexivity|].
    destruct r1 as [|a1 r1]; [reflexivity|].
    rewrite hex_str_cons2, !len_app, IH.
    change (len (hex2 b1)) with 2. change (len (lit " ")) with 1.
    rewrite !len_cons. pose proof (len_nonneg r1).
    destruct (Z.eqb_spec (1 + len r1) 0); [lia|].
    destruct (Z.eqb_spec (1 + (1 + len r1)) 0); lia.
Qed.

Lemma hex_str_is_faithful_witness :
  [xca; xfe] = [xca; xfe] /\ len (hex_str [xca; xfe]) = 5.
Proof.
  split.
  - apply (proj1 (hex_str_is_faithful [xca; xfe] [xca; xfe])). reflexivity.
  - apply (proj2 (hex_str_is_faithful [xca; xfe] [])).
Defined.

(** ** The type sub-decoders *)

Lemma dict_get_unknown (code : Z) :
  code < 0 \/ 6 < code -> dict_get ndef_uri_prepends code "" = ""%string.
Proof.
  intros H. unfold ndef_uri_prepends, dict_get.
  repeat match goal with
  | |- context [?a =? code] => destruct (Z.eqb_spec a code); [lia|]
  end. reflexivity.
Qed.

(** X9. The URI sub-decoder on a payload of [length] bytes at [pos]: it
    fails with the out-of-bounds error, appending nothing, when there is no
    byte at [pos] or the payload runs past the end of the buffer; otherwise
    it appends "URI\n", the prefix for the code read at [pos] (none for a
    code above 6) and the decoded bytes after it.  The code byte is read
    even when the payload is empty: the byte that follows the record is then
    taken as the code and the suffix is empty. *)
Theorem uri_decoder_behaviour (data : bytes) (pos length : Z) (out : str) :
  0 <= pos -> 0 <= length ->
  (len data < pos + 1 \/ len data < pos + length ->
   parse_ndef_uri data pos length out = (Raise Ndef.OutOfBounds, out)) /\
  (forall code,
      nth_error data (Z.to_nat pos) = Some code ->
      pos + length <= len data ->
      parse_ndef_uri data pos length out
      = (Ok tt,
         out ++ lit "URI" ++ nl
             ++ lit (dict_get ndef_uri_prepends (byte_val code) "")
             ++ decode_utf8 (sub data (pos + 1) (length - 1)) ++ nl) /\
      (6 < byte_val code ->
       dict_get ndef_uri_prepends (byte_val code) "" = ""%string) /\
      (length = 0 -> sub data (pos + 1) (length - 1) = [])).
Proof.
  intros Hp Hl. split.
  - intros Hb. unfold parse_ndef_uri.
    destruct (Z.le_gt_cases (pos + 1) (len data)) as [Hin|Hout].
    + unfold bind at 1.
      destruct (get_byte data pos out) as [[v|e|] o] eqn:E.
      * pose proof (get_byte_state _ _ _ _ _ E); subst o.
        unfold bind, liftR. rewrite get_raise by lia. reflexivity.
      * pose proof (get_byte_state _ _ _ _ _ E); subst o.
        apply get_byte_raise_inv in E; [now subst|lia].
      * pose proof (returns_get_byte data pos out) as R. now rewrite E in R.
    + unfold bind, get_byte, liftR. rewrite get_raise by lia. reflexivity.
  - intros code Hn Hb. split; [|split].
    + unfold parse_ndef_uri.
      rewrite (bind_eq _ _ _ (byte_val code) out)
        by (now apply get_byte_nth).
      unfold bind, liftR. rewrite get_ok by lia.
      unfold emit. now rewrite <- ?app_assoc.
    + intros. apply dict_get_unknown. lia.
    + intros ->. now apply sub_nonpos.
Qed.

Lemma uri_decoder_behaviour_witness :
  parse_ndef_uri scenario_uri 6 7 []
  = (Ok tt,
     [] ++ lit "URI" ++ nl
        ++ lit (dict_get ndef_uri_prepends (byte_val x01) "")
        ++ decode_utf8 (sub scenario_uri (6 + 1) (7 - 1)) ++ nl).
Proof.
  apply (proj2 (uri_decoder_behaviour scenario_uri 6 7 []
                  ltac:(lia) ltac:(lia)) x01).
  - reflexivity.
  - vm_compute. discriminate.
Defined.

(** X10. The Text sub-decoder on a payload of [length] bytes at [pos],
    whose first byte is the language length [L]: it fails with the
    out-of-bounds error, appending nothing, when the buffer has no byte at
    [pos], or ends before the [L] language bytes, or before the end of the
    payload; otherwise it appends "Text\n" and the decoded payload bytes
    behind the language tag, whose content is ignored.  The language length
    is not checked against the payload: when the payload is too short for
    its tag the appended text is empty. *)
Theorem text_decoder_behaviour (data : bytes) (pos length : Z) (out : str) :
  0 <= pos -> 0 <= length ->
  (len data < pos + 1 ->
   parse_ndef_text data pos length out = (Raise Ndef.OutOfBounds, out)) /\
  (forall lb,
      nth_error data (Z.to_nat pos) = Some lb ->
      (len data < pos + 1 + byte_val lb \/ len data < pos + length ->
       parse_ndef_text data pos length out = (Raise Ndef.OutOfBounds, out)) /\
      (pos + 1 + byte_val lb <= len data -> pos + length <= len data ->
       parse_ndef_text data pos length out
       = (Ok tt,
          out ++ lit "Text" ++ nl
              ++ decode_utf8
                   (sub data (pos + 1 + byte_val lb)
                      (length - 1 - byte_val lb)) ++ nl) /\
       (length <= 1 + byte_val lb ->
        sub data (pos + 1 + byte_val lb) (length - 1 - byte_val lb) = []))).
Proof.
  intros Hp Hl. split.
  - intros Hb. unfold parse_ndef_text, bind, get_byte, liftR.
    now rewrite get_raise by lia.
  - intros lb Hn. pose proof (byte_val_range lb) as Hr.
    unfold parse_ndef_text.
    rewrite (bind_eq _ _ _ (byte_val lb) out) by (now apply get_byte_nth).
    unfold bind, liftR. split.
    + intros Hb.
      destruct (Z.le_gt_cases (pos + 1 + byte_val lb) (len data)).
      * rewrite get_ok by lia. rewrite get_raise by lia. reflexivity.
      * rewrite get_raise by lia. reflexivity.
    + intros H1 H2. split.
      * rewrite get_ok by lia. rewrite get_ok by lia.
        unfold emit. now rewrite <- ?app_assoc.
      * intros. apply sub_nonpos. lia.
Qed.

Lemma text_decoder_behaviour_witness :
  parse_ndef_text text_overread_buffer 6 0 []
  = (Ok tt,
     [] ++ lit "Text" ++ nl
        ++ decode_utf8
             (sub text_overread_buffer (6 + 1 + byte_val xfe)
                (0 - 1 - byte_val xfe)) ++ nl) /\
  (0 <= 1 + byte_val xfe ->
   sub text_overread_buffer (6 + 1 + byte_val xfe) (0 - 1 - byte_val xfe)
   = []).
Proof.
  apply (proj2 (proj2 (text_decoder_behaviour text_overread_buffer 6 0 []
                         ltac:(lia) ltac:(lia)) xfe ltac:(reflexivity))).
  - vm_compute. discriminate.
  - vm_compute. discriminate.
Defined.

(** X11. The Bluetooth sub-decoder on a payload of [length] bytes at [pos]:
    it fails with the out-of-bounds error, appending nothing, exactly when
    the payload runs past the end of the buffer; otherwise it appends
    "BT MAC\n" and the hex rendering of the payload without its first two
    bytes.  A payload of fewer than two bytes is not an error: the rendering
    is then empty. *)
Theorem bt_decoder_behaviour (data : bytes) (pos length : Z) (out : str) :
  0 <= pos -> 0 <= length ->
  (len data < pos + length ->
   parse_ndef_bt data pos length out = (Raise Ndef.OutOfBounds, out)) /\
  (pos + length <= len data ->
   parse_ndef_bt data pos length out
   = (Ok tt,
      out ++ lit "BT MAC" ++ nl
          ++ hex_str (sub data (pos + 2) (length - 2)) ++ nl) /\
   (length <= 2 -> sub data (pos + 2) (length - 2) = [])).
Proof.
  intros Hp Hl. unfold parse_ndef_bt, bind, liftR. split.
  - intros Hb. now rewrite get_raise by lia.
  - intros Hb. split.
    + rewrite get_ok by lia. unfold emit. now rewrite <- ?app_assoc.
    + intros. apply sub_nonpos. lia.
Qed.

Lemma bt_decoder_behaviour_witness :
  parse_ndef_bt [x01; x02; xaa; xbb] 0 1 []
  = (Ok tt,
     [] ++ lit "BT MAC" ++ nl
        ++ hex_str (sub [x01; x02; xaa; xbb] (0 + 2) (1 - 2)) ++ nl) /\
  (1 <= 2 -> sub [x01; x02; xaa; xbb] (0 + 2) (1 - 2) = []).
Proof.
  apply (proj2 (bt_decoder_behaviour [x01; x02; xaa; xbb] 0 1 []
                  ltac:(lia) ltac:(lia))).
  vm_compute. discriminate.
Defined.

(** ** The MB and ME flags *)

Lemma flag_fields_low6 (f : byte) :
  Z.land (Z.shiftr (byte_val f) 5) 1
  = Z.land (Z.shiftr (Z.land (byte_val f) 0x3F) 5) 1 /\
  Z.land (Z.shiftr (byte_val f) 4) 1
  = Z.land (Z.shiftr (Z.land (byte_val f) 0x3F) 4) 1 /\
  Z.land (Z.shiftr (byte_val f) 3) 1
  = Z.land (Z.shiftr (Z.land (byte_val f) 0x3F) 3) 1 /\
  Z.land (byte_val f) 7 = Z.land (Z.land (byte_val f) 0x3F) 7.
Proof. destruct f; vm_compute; repeat split; reflexivity. Qed.

Lemma get_byte_cons (f : byte) (rest : bytes) (q : Z) (out : str) :
  0 <= q -> get_byte (f :: rest) (1 + q) out = get_byte rest q out.
Proof. intros. now apply (get_byte_shift [f] rest q out). Qed.

Lemma get_cons (f : byte) (rest : bytes) (q l : Z) :
  0 <= q -> 0 <= q + l -> Ndef.get (f :: rest) (1 + q) l = Ndef.get rest q l.
Proof. intros. now apply (get_shift [f] rest q l). Qed.

Lemma record_tail_cons (f : byte) (rest : bytes)
      (flags type_len payload_len q : Z) (out : str) :
  0 <= q -> 0 <= type_len -> 0 <= payload_len ->
  record_tail (f :: rest) flags type_len payload_len (1 + q) out
  = shift_pos 1 (record_tail rest flags type_len payload_len q out).
Proof.
  intros. now apply (record_tail_shift [f] rest flags type_len payload_len q).
Qed.

Lemma record_tail_flags (data : bytes) (v1 v2 type_len payload_len q : Z) :
  Z.land (Z.shiftr v1 3) 1 = Z.land (Z.shiftr v2 3) 1 ->
  Z.land v1 7 = Z.land v2 7 ->
  record_tail data v1 type_len payload_len q
  = record_tail data v2 type_len payload_len q.
Proof. intros H3 H7. unfold record_tail. now rewrite H3, H7. Qed.

Lemma record_flags_low6_0 (rest : bytes) (f1 f2 : byte) (mn : Z) (out : str) :
  Z.land (byte_val f1) 0x3F = Z.land (byte_val f2) 0x3F ->
  parse_ndef_record (f1 :: rest) 0 mn out
  = parse_ndef_record (f2 :: rest) 0 mn out.
Proof.
  intros H.
  destruct (flag_fields_low6 f1) as (C1 & S1 & I1 & T1).
  destruct (flag_fields_low6 f2) as (C2 & S2 & I2 & T2).
  rewrite H in C1, S1, I1, T1.
  rewrite <- C2 in C1. rewrite <- S2 in S1. rewrite <- I2 in I1.
  rewrite <- T2 in T1. clear C2 S2 I2 T2.
  rewrite !parse_ndef_record_tail.
  rewrite (bind_eq _ _ _ (byte_val f1) out)
    by (apply get_byte_nth; [lia|reflexivity]).
  rewrite (bind_eq _ _ _ (byte_val f2) out)
    by (apply get_byte_nth; [lia|reflexivity]).
  rewrite C1, S1.
  destruct (negb (Z.land (Z.shiftr (byte_val f2) 5) 1 =? 0)); [reflexivity|].
  change (0 + 1 + 1 + 1) with (1 + 2). change (0 + 1 + 1 + 4) with (1 + 5).
  change (0 + 1 + 1) with (1 + 1). change (0 + 1) with (1 + 0).
  unfold bind, liftR, ret.
  rewrite !get_byte_cons by lia.
  destruct (get_byte rest 0 out) as [[tl|e|] o] eqn:E; try reflexivity.
  apply get_byte_ok in E.
  destruct (negb (Z.land (Z.shiftr (byte_val f2) 4) 1 =? 0)).
  - rewrite !get_byte_cons by lia.
    destruct (get_byte rest 1 o) as [[pl|e|] o1] eqn:E1; try reflexivity.
    apply get_byte_ok in E1.
    rewrite !record_tail_cons by lia.
    now rewrite (record_tail_flags rest _ _ tl pl 2 I1 T1).
  - rewrite !get_cons by lia.
    destruct (Ndef.get rest 1 4) as [v|e|]; try reflexivity.
    pose proof (from_bytes_big_nonneg v).
    rewrite !record_tail_cons by lia.
    now rewrite (record_tail_flags rest _ _ tl (from_bytes_big v) 5 I1 T1).
Qed.

(** X12. The record decoder ignores the MB and ME bits: two buffers that
    differ only in bits 7 and 6 of the flags byte of the record decode that
    record identically (same cursor, same output, same error). *)
Theorem mb_me_flags_are_ignored (pre rest : bytes) (f1 f2 : byte) (mn : Z)
        (out : str) :
  Z.land (byte_val f1) 0x3F = Z.land (byte_val f2) 0x3F ->
  parse_ndef_record (pre ++ f1 :: rest) (len pre) mn out
  = parse_ndef_record (pre ++ f2 :: rest) (len pre) mn out.
Proof.
  intros H. replace (len pre) with (len pre + 0) by lia.
  rewrite !record_shift by lia.
  now rewrite (record_flags_low6_0 rest f1 f2 mn out H).
Qed.

Lemma mb_me_flags_are_ignored_witness :
  parse_ndef_record
    ([x03; x0b] ++ xd1
       :: [x01; x07; x55; x01; x6e; x66; x63; x2e; x72; x65; xfe])
    (len [x03; x0b]) 1 []
  = parse_ndef_record
      ([x03; x0b] ++ x11
         :: [x01; x07; x55; x01; x6e; x66; x63; x2e; x72; x65; xfe])
      (len [x03; x0b]) 1 [].
Proof.
  apply (mb_me_flags_are_ignored [x03; x0b]
           [x01; x07; x55; x01; x6e; x66; x63; x2e; x72; x65; xfe]
           xd1 x11 1 []).
  reflexivity.
Defined.

(** ** The returned text *)

Lemma lstrip_hd (s : str) :
  lstrip s <> [] -> isspace (hd 0 (lstrip s)) = false.
Proof.
  induction s as [|c s IH]; simpl; [congruence|].
  destruct (isspace c) eqn:E; [exact IH|]. intros _. exact E.
Qed.

Lemma lstrip_suffix (s : str) : exists pre, s = pre ++ lstrip s.
Proof.
  induction s as [|c s [pre IH]]; [now exists []|].
  simpl. destruct (isspace c).
  - exists (c :: pre). simpl. now f_equal.
  - now exists [].
Qed.

Lemma last_app_r (pre b : str) (d : Z) :
  b <> [] -> last (pre ++ b) d = last b d.
Proof.
  intros Hb. induction pre as [|x pre IH]; [reflexivity|].
  simpl. destruct (pre ++ b) eqn:E; [|exact IH].
  apply app_eq_nil in E as [_ E]. congruence.
Qed.

Lemma hd_rev (b : str) (d : Z) : hd d (rev b) = last b d.
Proof.
  induction b as [|x b IH]; [reflexivity|].
  simpl rev. destruct b as [|y b]; [reflexivity|].
  change (last (x :: y :: b) d) with (last (y :: b) d). rewrite <- IH.
  simpl rev. destruct (rev b ++ [y]) eqn:E; [|reflexivity].
  apply app_eq_nil in E as [_ E]. discriminate E.
Qed.

Lemma last_rev (b : str) (d : Z) : last (rev b) d = hd d b.
Proof.
  destruct b as [|x b]; [reflexivity|]. simpl. apply last_last.
Qed.

Lemma strip_ends (s : str) :
  strip s <> [] ->
  isspace (hd 0 (strip s)) = false /\ isspace (last (strip s) 0) = false.
Proof.
  unfold strip. set (a := lstrip s). set (b := lstrip (rev a)).
  intros Hne.
  assert (Hb : b <> []) by (intros E; rewrite E in Hne; now apply Hne).
  split.
  - rewrite hd_rev.
    destruct (lstrip_suffix (rev a)) as [pre Hpre]. fold b in Hpre.
    rewrite <- (last_app_r pre b 0 Hb), <- Hpre, last_rev.
    apply lstrip_hd. intros E. fold a in E. rewrite E in Hpre. simpl in Hpre.
    symmetry in Hpre. apply app_eq_nil in Hpre as [_ Hpre]. congruence.
  - rewrite last_rev. now apply lstrip_hd.
Qed.

(** X13. The text returned by [parse_ndef] never begins or ends with white
    space: it is one of the fixed messages or the accumulated output with
    leading and trailing white space removed, so the newline that ends the
    last record block is not part of it. *)
Theorem returned_text_is_stripped (data : bytes) (s : str) :
  parse_ndef data = Some s -> s <> [] ->
  isspace (hd 0 s) = false /\ isspace (last s 0) = false.
Proof.
  rewrite parse_ndef_render. unfold render.
  destruct (scan data) as [[mc|e|] o] eqn:E; [| |discriminate].
  - destruct (mc =? 0); intros H Hne; inversion H; subst.
    + split; vm_compute; reflexivity.
    + now apply strip_ends.
  - intros H _. inversion H; subst.
    unfold scan, parse_ndef_tlv in E.
    apply tlv_loop_raise_inv in E; [|lia].
    destruct E as [-> | ->]; split; vm_compute; reflexivity.
Qed.

Lemma returned_text_is_stripped_witness :
  isspace (hd 0 (lit "URI" ++ nl ++ lit "http://www.nfc.re")) = false /\
  isspace (last (lit "URI" ++ nl ++ lit "http://www.nfc.re") 0) = false.
Proof.
  apply (returned_text_is_stripped scenario_uri).
  - vm_compute. reflexivity.
  - vm_compute. discriminate.
Defined.

(** ** Buffers without an NdefMessage TLV *)


Lemma tlv_length_raise (data : bytes) (q : Z) out e o :
  tlv_length data q out = (Raise e, o) -> 0 <= q ->
  e = Ndef.OutOfBounds /\ o = out.
Proof.
  unfold tlv_length. intros H Hq. split.
  - inv_raise; raise_facts; reflexivity.
  - inv_state; reflexivity.
Qed.





(** ** Well-formed tags *)

Lemma message_loop_done (fuel : nat) (data : bytes) end_ pos mn out :
  end_ <= pos -> message_loop fuel data end_ pos mn out = (Ok pos, out).
Proof.
  intros H. destruct fuel; simpl; destruct (Z.ltb_spec pos end_);
    try lia; reflexivity.
Qed.

Lemma message_loop_S (fuel : nat) (data : bytes) end_ pos mn :
  message_loop (S fuel) data end_ pos mn
  = if pos <? end_ then
      pos' <- parse_ndef_record data pos mn ;;
      message_loop fuel data end_ pos' mn
    else ret pos.
Proof. reflexivity. Qed.

Lemma sub_app_exact (pre s rest : bytes) (q : Z) :
  q = len pre -> sub (pre ++ s ++ rest) q (len s) = s.
Proof.
  intros ->. unfold sub, len. rewrite !Nat2Z.id.
  rewrite skipn_app, skipn_all, Nat.sub_diag. simpl.
  rewrite firstn_app, firstn_all, Nat.sub_diag. simpl. apply app_nil_r.
Qed.

(** A short well-known record of type [ty] with payload [payload], alone in
    an NdefMessage TLV that is followed by a terminator: the scanner hands
    the payload range to the dispatcher and stops at the terminator. *)
Lemma scan_single_record (Lb pl ty : byte) (payload rest : bytes) (k : M unit) :
  byte_val pl = len payload ->
  byte_val Lb = len payload + 4 ->
  byte_val Lb < 0xFF ->
  (forall out,
      dispatch (x03 :: Lb :: xd1 :: x01 :: pl :: ty :: payload ++ xfe :: rest)
        NdefTnfWellKnownType [ty] 6 (len payload) out
      = k out) ->
  scan (x03 :: Lb :: xd1 :: x01 :: pl :: ty :: payload ++ xfe :: rest)
  = match k [] with
    | (Ok _, o) => (Ok 1, o)
    | (Raise e, o) => (Raise e, o)
    | (OutOfFuel, o) => (OutOfFuel, o)
    end.
Proof.
  intros Hpl HLb Hlt Hk.
  set (data := x03 :: Lb :: xd1 :: x01 :: pl :: ty :: payload ++ xfe :: rest).
  pose proof (len_nonneg payload) as Hp. pose proof (len_nonneg rest) as Hr.
  assert (Hlen : len data = 7 + len payload + len rest).
  { unfold data. rewrite !len_cons, len_app, len_cons. lia. }
  assert (Hrec : forall out,
             parse_ndef_record data 2 1 out
             = match k out with
               | (Ok _, o) => (Ok (6 + len payload), o)
               | (Raise e, o) => (Raise e, o)
               | (OutOfFuel, o) => (OutOfFuel, o)
               end).
  { intros out. unfold parse_ndef_record.
    rewrite (bind_eq _ _ _ (byte_val xd1) out)
      by (apply get_byte_nth; [lia|reflexivity]).
    change (negb (Z.land (Z.shiftr (byte_val xd1) 5) 1 =? 0)) with false.
    change (negb (Z.land (Z.shiftr (byte_val xd1) 4) 1 =? 0)) with true.
    change (negb (Z.land (Z.shiftr (byte_val xd1) 3) 1 =? 0)) with false.
    cbv beta iota zeta.
    rewrite (bind_eq _ _ _ (byte_val x01) out)
      by (apply get_byte_nth; [lia|reflexivity]).
    rewrite (bind_eq _ _ _ (byte_val pl, 2 + 1 + 1 + 1) out).
    2:{ rewrite (bind_eq _ _ _ (byte_val pl) out)
          by (apply get_byte_nth; [lia|reflexivity]).
        reflexivity. }
    cbv beta iota zeta.
    rewrite (bind_eq _ _ _ (0, 2 + 1 + 1 + 1) out) by reflexivity.
    cbv beta iota zeta.
    rewrite (bind_eq _ _ _ [ty] out).
    2:{ unfold liftR. rewrite get_ok by (change (byte_val x01) with 1; lia).
        reflexivity. }
    change (Z.land (byte_val xd1) 7) with NdefTnfWellKnownType.
    change (2 + 1 + 1 + 1 + byte_val x01 + 0) with 6.
    rewrite Hpl. unfold bind at 1. rewrite Hk.
    destruct (k out) as [[u|e|] o]; reflexivity. }
  assert (Hstep : forall mf,
             tlv_step (S mf) data 0 0 []
             = match k [] with
               | (Ok _, o) => (Ok (Continue (6 + len payload) 1), o)
               | (Raise e, o) => (Raise e, o)
               | (OutOfFuel, o) => (OutOfFuel, o)
               end).
  { intros mf. unfold tlv_step.
    rewrite (bind_eq _ _ _ (byte_val x03) [])
      by (apply get_byte_nth; [lia|reflexivity]).
    change (byte_val x03 =? NdefTlvPadding) with false.
    change (byte_val x03 =? NdefTlvTerminator) with false.
    change ((byte_val x03 =? NdefTlvLockControl)
            || (byte_val x03 =? NdefTlvMemoryControl)
            || (byte_val x03 =? NdefTlvProprietary)
            || (byte_val x03 =? NdefTlvNdefMessage)) with true.
    change (negb (byte_val x03 =? NdefTlvNdefMessage)) with false.
    cbv beta iota zeta.
    rewrite (bind_eq _ _ _ (byte_val Lb, 0 + 1 + 1) []).
    2:{ unfold tlv_length.
        rewrite (bind_eq _ _ _ (byte_val Lb) [])
          by (apply get_byte_nth; [lia|reflexivity]).
        destruct (Z.ltb_spec (byte_val Lb) 255); [reflexivity|lia]. }
    cbv beta iota zeta. unfold parse_ndef_message.
    rewrite message_loop_S.
    destruct (Z.ltb_spec (0 + 1 + 1) (0 + 1 + 1 + byte_val Lb)); [|lia].
    unfold bind. change (0 + 1 + 1) with 2. change (0 + 1) with 1.
    rewrite Hrec.
    destruct (k []) as [[u|e|] o]; try reflexivity.
    rewrite message_loop_done by lia. reflexivity. }
  unfold scan, parse_ndef_tlv.
  change (List.length data)
    with (S (S (List.length
                  (xd1 :: x01 :: pl :: ty :: payload ++ xfe :: rest)))).
  rewrite tlv_loop_S.
  destruct (Z.ltb_spec 0 (0 + len data)); [|lia].
  unfold bind at 1. rewrite Hstep.
  destruct (k []) as [[u|e|] o]; try reflexivity.
  rewrite tlv_loop_S.
  destruct (Z.ltb_spec (6 + len payload) (0 + len data)); [|lia].
  assert (Ht : tlv_step
                 (S (S (List.length
                          (xd1 :: x01 :: pl :: ty :: payload ++ xfe :: rest))))
                 data (6 + len payload) 1 o = (Ok (Return 1), o)).
  { unfold tlv_step.
    rewrite (bind_eq _ _ _ (byte_val xfe) o); [reflexivity|].
    unfold data.
    change (x03 :: Lb :: xd1 :: x01 :: pl :: ty :: payload ++ xfe :: rest)
      with ([x03; Lb; xd1; x01; pl; ty] ++ payload ++ xfe :: rest).
    rewrite app_assoc.
    apply get_byte_app with (q := 0); [|lia|reflexivity].
    rewrite len_app. change (len [x03; Lb; xd1; x01; pl; ty]) with 6. lia. }
  now rewrite (bind_eq _ _ _ _ _ Ht).
Qed.

(** X15. A well-formed URI tag decodes to its URI: an NdefMessage TLV in
    short form that holds one short URI record (flags 0xD1, type "U") with
    prefix code [code] and suffix bytes [suffix], followed by a terminator,
    gives one message and the text "URI\n", the prefix of the code and the
    decoded suffix; whatever follows the terminator is irrelevant. *)
Theorem well_formed_uri_tag (Lb pl code : byte) (suffix rest : bytes) :
  byte_val pl = len suffix + 1 ->
  byte_val Lb = len suffix + 5 ->
  byte_val Lb < 0xFF ->
  scan (x03 :: Lb :: xd1 :: x01 :: pl :: x55 :: code :: suffix ++ xfe :: rest)
  = (Ok 1,
     lit "URI" ++ nl ++ lit (dict_get ndef_uri_prepends (byte_val code) "")
       ++ decode_utf8 suffix ++ nl) /\
  parse_ndef
    (x03 :: Lb :: xd1 :: x01 :: pl :: x55 :: code :: suffix ++ xfe :: rest)
  = Some (strip (lit "URI" ++ nl
                   ++ lit (dict_get ndef_uri_prepends (byte_val code) "")
                   ++ decode_utf8 suffix ++ nl)).
Proof.
  intros Hpl HLb Hlt.
  pose proof (len_nonneg suffix) as Hs. pose proof (len_nonneg rest) as Hr.
  assert (E : scan (x03 :: Lb :: xd1 :: x01 :: pl :: x55
                      :: (code :: suffix) ++ xfe :: rest)
              = (Ok 1,
                 lit "URI" ++ nl
                   ++ lit (dict_get ndef_uri_prepends (byte_val code) "")
                   ++ decode_utf8 suffix ++ nl)).
  { rewrite (scan_single_record Lb pl x55 (code :: suffix) rest
               (fun out =>
                  (Ok tt,
                   out ++ lit "URI" ++ nl
                     ++ lit (dict_get ndef_uri_prepends (byte_val code) "")
                     ++ decode_utf8 suffix ++ nl)));
      [reflexivity | rewrite len_cons; lia | rewrite len_cons; lia | lia | ].
    intros out. unfold dispatch.
    change (NdefTnfWellKnownType =? NdefTnfWellKnownType) with true.
    change (bytes_eqb [x55] (blit "U")) with true. cbv iota.
    unfold parse_ndef_uri.
    rewrite (bind_eq _ _ _ (byte_val code) out)
      by (apply get_byte_nth; [lia|reflexivity]).
    unfold bind, liftR.
    rewrite get_ok
      by (simpl app; rewrite ?len_cons, ?len_app, ?len_cons; lia).
    replace (len (code :: suffix) - 1) with (len suffix)
      by (rewrite len_cons; lia).
    change (x03 :: Lb :: xd1 :: x01 :: pl :: x55
              :: (code :: suffix) ++ xfe :: rest)
      with ([x03; Lb; xd1; x01; pl; x55; code] ++ suffix ++ xfe :: rest).
    rewrite sub_app_exact by reflexivity.
    unfold emit. now rewrite <- ?app_assoc. }
  split; [exact E|].
  rewrite parse_ndef_render.
  change (x03 :: Lb :: xd1 :: x01 :: pl :: x55 :: code :: suffix ++ xfe :: rest)
    with (x03 :: Lb :: xd1 :: x01 :: pl :: x55
            :: (code :: suffix) ++ xfe :: rest).
  now rewrite E.
Qed.

Lemma well_formed_uri_tag_witness :
  scan (x03 :: x0b :: xd1 :: x01 :: x07 :: x55 :: x01
          :: [x6e; x66; x63; x2e; x72; x65] ++ xfe :: [])
  = (Ok 1,
     lit "URI" ++ nl ++ lit (dict_get ndef_uri_prepends (byte_val x01) "")
       ++ decode_utf8 [x6e; x66; x63; x2e; x72; x65] ++ nl) /\
  parse_ndef
    (x03 :: x0b :: xd1 :: x01 :: x07 :: x55 :: x01
       :: [x6e; x66; x63; x2e; x72; x65] ++ xfe :: [])
  = Some (strip (lit "URI" ++ nl
                   ++ lit (dict_get ndef_uri_prepends (byte_val x01) "")
                   ++ decode_utf8 [x6e; x66; x63; x2e; x72; x65] ++ nl)).
Proof.
  apply (well_formed_uri_tag x0b x07 x01 [x6e; x66; x63; x2e; x72; x65] []);
    vm_compute; reflexivity.
Defined.

(** X16. A well-formed Text tag decodes to its text: an NdefMessage TLV in
    short form that holds one short Text record (flags 0xD1, type "T") with
    language tag [lang] and text bytes [text], followed by a terminator,
    gives one message and the text "Text\n" followed by the decoded text;
    the language tag does not appear in the output. *)
Theorem well_formed_text_tag (Lb pl ll : byte) (lang text rest : bytes) :
  byte_val ll = len lang ->
  byte_val pl = 1 + len lang + len text ->
  byte_val Lb = 5 + len lang + len text ->
  byte_val Lb < 0xFF ->
  scan (x03 :: Lb :: xd1 :: x01 :: pl :: x54 :: ll
          :: lang ++ text ++ xfe :: rest)
  = (Ok 1, lit "Text" ++ nl ++ decode_utf8 text ++ nl) /\
  parse_ndef (x03 :: Lb :: xd1 :: x01 :: pl :: x54 :: ll
                :: lang ++ text ++ xfe :: rest)
  = Some (strip (lit "Text" ++ nl ++ decode_utf8 text ++ nl)).
Proof.
  intros Hll Hpl HLb Hlt.
  pose proof (len_nonneg lang) as Hg. pose proof (len_nonneg text) as Hx.
  pose proof (len_nonneg rest) as Hr.
  assert (E : scan (x03 :: Lb :: xd1 :: x01 :: pl :: x54
                      :: (ll :: lang ++ text) ++ xfe :: rest)
              = (Ok 1, lit "Text" ++ nl ++ decode_utf8 text ++ nl)).
  { rewrite (scan_single_record Lb pl x54 (ll :: lang ++ text) rest
               (fun out =>
                  (Ok tt, out ++ lit "Text" ++ nl ++ decode_utf8 text ++ nl)));
      [reflexivity | rewrite len_cons, len_app; lia
       | rewrite len_cons, len_app; lia | lia | ].
    intros out. unfold dispatch.
    change (NdefTnfWellKnownType =? NdefTnfWellKnownType) with true.
    change (bytes_eqb [x54] (blit "U")) with false.
    change (bytes_eqb [x54] (blit "T")) with true. cbv iota.
    unfold parse_ndef_text.
    rewrite (bind_eq _ _ _ (byte_val ll) out)
      by (apply get_byte_nth; [lia|reflexivity]).
    unfold bind, liftR.
    assert (Hlen : len (x03 :: Lb :: xd1 :: x01 :: pl :: x54
                          :: (ll :: lang ++ text) ++ xfe :: rest)
                   = 8 + len lang + len text + len rest).
    { simpl app. rewrite !len_cons, !len_app, len_cons. lia. }
    rewrite get_ok by lia.
    rewrite get_ok by (rewrite ?len_cons, ?len_app in *; lia).
    replace (len (ll :: lang ++ text) - 1 - byte_val ll) with (len text)
      by (rewrite len_cons, len_app; lia).
    replace (x03 :: Lb :: xd1 :: x01 :: pl :: x54
               :: (ll :: lang ++ text) ++ xfe :: rest)
      with (([x03; Lb; xd1; x01; pl; x54; ll] ++ lang) ++ text ++ xfe :: rest)
      by (simpl; now rewrite <- !app_assoc).
    rewrite sub_app_exact
      by (rewrite len_app; change (len [x03; Lb; xd1; x01; pl; x54; ll])
            with 7; lia).
    unfold emit. now rewrite <- ?app_assoc. }
  replace (x03 :: Lb :: xd1 :: x01 :: pl :: x54 :: ll
             :: lang ++ text ++ xfe :: rest)
    with (x03 :: Lb :: xd1 :: x01 :: pl :: x54
            :: (ll :: lang ++ text) ++ xfe :: rest)
    by (simpl; now rewrite <- !app_assoc).
  split; [exact E|].
  rewrite parse_ndef_render. now rewrite E.
Qed.

Lemma well_formed_text_tag_witness :
  scan (x03 :: x08 :: xd1 :: x01 :: x04 :: x54 :: x02
          :: [x65; x6e] ++ [x58] ++ xfe :: [])
  = (Ok 1, lit "Text" ++ nl ++ decode_utf8 [x58] ++ nl) /\
  parse_ndef (x03 :: x08 :: xd1 :: x01 :: x04 :: x54 :: x02
                :: [x65; x6e] ++ [x58] ++ xfe :: [])
  = Some (strip (lit "Text" ++ nl ++ decode_utf8 [x58] ++ nl)).
Proof.
  apply (well_formed_text_tag x08 x04 x02 [x65; x6e] [x58] []);
    vm_compute; reflexivity.
Defined.

(** ** The blocks of the output *)

(** X17. The blocks of the records of a message appear in buffer order: if
    the first record of a range appends [s1] and the message decoder run on
    the rest of the range appends [s2], then the message decoder run on the
    whole range appends [s1] followed by [s2] to what was accumulated, with
    the result of the second run. *)
Theorem records_are_rendered_in_order (fuel : nat) (data : bytes)
        (pos length mn pos1 : Z) (out s1 s2 : str) (r : result Z) :
  0 < length ->
  parse_ndef_record data pos mn [] = (Ok pos1, s1) ->
  parse_ndef_message fuel data pos1 (pos + length - pos1) mn [] = (r, s2) ->
  parse_ndef_message (S fuel) data pos length mn out = (r, out ++ s1 ++ s2).
Proof.
  intros Hl Hrec Hrest. unfold parse_ndef_message in *.
  replace (pos1 + (pos + length - pos1)) with (pos + length) in Hrest by lia.
  rewrite message_loop_S. destruct (Z.ltb_spec pos (pos + length)); [|lia].
  unfold bind. rewrite (framed_record data pos mn out), Hrec. simpl.
  rewrite (framed_message_loop fuel data (pos + length) mn pos1 (out ++ s1)).
  rewrite Hrest. simpl. now rewrite app_assoc.
Qed.

Lemma records_are_rendered_in_order_witness :
  parse_ndef_message 2 [xd1; x01; x01; x55; x03; xd1; x01; x01; x54; x00]
    0 10 1 (lit ">")
  = (Ok 10,
     lit ">" ++ (lit "URI" ++ nl ++ lit "http://" ++ nl)
       ++ (lit "Text" ++ nl ++ nl)).
Proof.
  apply (records_are_rendered_in_order 1
           [xd1; x01; x01; x55; x03; xd1; x01; x01; x54; x00] 0 10 1 5).
  - lia.
  - vm_compute. reflexivity.
  - vm_compute. reflexivity.
Defined.

Lemma bytes_eqb_eq (a b : bytes) : bytes_eqb a b = true <-> a = b.
Proof.
  revert b. induction a as [|x a IH]; intros [|y b]; simpl; split; intros H;
    try reflexivity; try discriminate.
  - apply andb_true_iff in H as [H1 H2].
    apply Byte.byte_dec_bl in H1. apply IH in H2. now subst.
  - inversion H; subst. apply andb_true_iff.
    split; [now apply Byte.byte_dec_lb | now apply IH].
Qed.

Lemma bytes_eqb_neq (a b : bytes) : a <> b -> bytes_eqb a b = false.
Proof.
  intros H. destruct (bytes_eqb a b) eqn:E; [|reflexivity].
  now apply bytes_eqb_eq in E.
Qed.

Lemma get_byte_read (data : bytes) (q : Z) out v o :
  get_byte data q out = (Ok v, o) -> 0 <= q ->
  exists b, nth_error data (Z.to_nat q) = Some b /\ v = byte_val b /\ o = out.
Proof.
  intros H Hq. pose proof (get_byte_state _ _ _ _ _ H) as Ho.
  unfold get_byte in H. inv_ok.
  match goal with
  | Hg : Ndef.get _ _ _ = Ok _ |- _ =>
    pose proof (get_inv _ _ _ _ Hg) as Hb; rewrite get_ok in Hg by lia;
      inversion Hg; subst; clear Hg
  end.
  apply index0_ok in H as (b & rest & Hs & ->).
  exists b. split; [|auto].
  pose proof (nth_error_sub data q 1 0 Hq ltac:(lia)) as Hn.
  rewrite Hs in Hn. simpl in Hn. rewrite Z.add_0_r in Hn. now symmetry.
Qed.

Lemma dump_label_ok (data : bytes) (label : string) (pos length : Z)
      (out out' : str) :
  0 <= pos -> 0 <= length -> lit label <> [] ->
  Ndef.dump data (lit label) pos length false out = (Ok tt, out') ->
  out' = out ++ lit label ++ lit ": "
             ++ (if Ndef.printable (sub data pos length)
                 then map byte_val (sub data pos length)
                 else hex_str (sub data pos length))
             ++ nl.
Proof.
  intros Hp Hl Hne H. pose proof (dump_ok _ _ _ _ _ _ _ _ H) as Hb.
  rewrite dump_in_bounds in H by assumption.
  inversion H. destruct (lit label); [congruence|].
  simpl negb. simpl andb. rewrite <- ?app_assoc; reflexivity.
Qed.

(** X18. Every payload that is dispatched successfully lies within the
    buffer and appends exactly one block to the output, and the TNF and the
    type of its record alone select the block: well-known "U" gives "URI",
    the prefix of the code byte and the decoded suffix; well-known "T"
    gives "Text" and the decoded text behind the language tag; the three
    media types give "BT MAC" with the payload behind its first two bytes
    in hex, "Contact" with the decoded payload and "WiFi" with the payload
    in hex; any other well-known type, any other media type and any other
    TNF give one line with the label "Unknown Well-known", "Unknown Media"
    or "Unsupported TNF" and the payload as text if it is printable and in
    hex if not.  The type is compared byte for byte. *)
Theorem decoded_payload_appends_a_block (data : bytes) (tnf : Z)
        (type_field : bytes) (pos payload_len : Z) (out out' : str) :
  0 <= pos -> 0 <= payload_len ->
  dispatch data tnf type_field pos payload_len out = (Ok tt, out') ->
  pos + payload_len <= len data /\
  (tnf = NdefTnfWellKnownType -> type_field = blit "U" ->
   exists code,
     nth_error data (Z.to_nat pos) = Some code /\
     out' = out ++ lit "URI" ++ nl
                ++ lit (dict_get ndef_uri_prepends (byte_val code) "")
                ++ decode_utf8 (sub data (pos + 1) (payload_len - 1)) ++ nl) /\
  (tnf = NdefTnfWellKnownType -> type_field = blit "T" ->
   exists lb,
     nth_error data (Z.to_nat pos) = Some lb /\
     out' = out ++ lit "Text" ++ nl
                ++ decode_utf8 (sub data (pos + 1 + byte_val lb)
                                  (payload_len - 1 - byte_val lb)) ++ nl) /\
  (tnf = NdefTnfWellKnownType ->
   type_field <> blit "U" -> type_field <> blit "T" ->
   out' = out ++ lit "Unknown Well-known" ++ lit ": "
              ++ (if Ndef.printable (sub data pos payload_len)
                  then map byte_val (sub data pos payload_len)
                  else hex_str (sub data pos payload_len)) ++ nl) /\
  (tnf = NdefTnfMediaType ->
   type_field = blit "application/vnd.bluetooth.ep.oob" ->
   out' = out ++ lit "BT MAC" ++ nl
              ++ hex_str (sub data (pos + 2) (payload_len - 2)) ++ nl) /\
  (tnf = NdefTnfMediaType -> type_field = blit "text/vcard" ->
   out' = out ++ lit "Contact" ++ nl
              ++ decode_utf8 (sub data pos payload_len) ++ nl) /\
  (tnf = NdefTnfMediaType -> type_field = blit "application/vnd.wfa.wsc" ->
   out' = out ++ lit "WiFi" ++ nl
              ++ hex_str (sub data pos payload_len) ++ nl) /\
  (tnf = NdefTnfMediaType ->
   type_field <> blit "application/vnd.bluetooth.ep.oob" ->
   type_field <> blit "text/vcard" ->
   type_field <> blit "application/vnd.wfa.wsc" ->
   out' = out ++ lit "Unknown Media" ++ lit ": "
              ++ (if Ndef.printable (sub data pos payload_len)
                  then map byte_val (sub data pos payload_len)
                  else hex_str (sub data pos payload_len)) ++ nl) /\
  (tnf <> NdefTnfWellKnownType -> tnf <> NdefTnfMediaType ->
   out' = out ++ lit "Unsupported TNF" ++ lit ": "
              ++ (if Ndef.printable (sub data pos payload_len)
                  then map byte_val (sub data pos payload_len)
                  else hex_str (sub data pos payload_len)) ++ nl).
Proof.
  intros Hp Hl H.
  pose proof (dispatch_ok _ _ _ _ _ _ _ _ H) as Hb.
  unfold dispatch in H. repeat apply conj.
  - exact Hb.
  - intros -> ->. rewrite Z.eqb_refl in H.
    change (bytes_eqb (blit "U") (blit "U")) with true in H. cbv iota in H.
    unfold parse_ndef_uri in H. inv_ok.
    match goal with
    | Hg : get_byte _ _ _ = _ |- _ =>
      apply get_byte_read in Hg; [destruct Hg as (code & Hn & -> & ->)|lia]
    end.
    match goal with
    | Hg : Ndef.get _ _ _ = Ok _ |- _ =>
      rewrite get_ok in Hg by lia; inversion Hg; subst; clear Hg
    end.
    exists code. split; [exact Hn|]. rewrite <- ?app_assoc; reflexivity.
  - intros -> ->. rewrite Z.eqb_refl in H.
    change (bytes_eqb (blit "T") (blit "U")) with false in H.
    change (bytes_eqb (blit "T") (blit "T")) with true in H. cbv iota in H.
    unfold parse_ndef_text in H. inv_ok.
    match goal with
    | Hg : get_byte _ _ _ = _ |- _ =>
      apply get_byte_read in Hg; [destruct Hg as (lb & Hn & -> & ->)|lia]
    end.
    pose proof (byte_val_range lb).
    repeat match goal with
    | Hg : Ndef.get _ _ _ = Ok _ |- _ =>
      pose proof (get_inv _ _ _ _ Hg); rewrite get_ok in Hg by lia;
        inversion Hg; subst; clear Hg
    end.
    exists lb. split; [exact Hn|]. rewrite <- ?app_assoc; reflexivity.
  - intros -> HU HT. rewrite Z.eqb_refl in H.
    rewrite (bytes_eqb_neq _ _ HU), (bytes_eqb_neq _ _ HT) in H.
    apply dump_label_ok in H; [exact H|lia|lia|discriminate].
  - intros -> ->.
    change (NdefTnfMediaType =? NdefTnfWellKnownType) with false in H.
    rewrite Z.eqb_refl in H.
    change (bytes_eqb (blit "application/vnd.bluetooth.ep.oob")
              (blit "application/vnd.bluetooth.ep.oob")) with true in H.
    cbv iota in H. unfold parse_ndef_bt in H. inv_ok.
    match goal with
    | Hg : Ndef.get _ _ _ = Ok _ |- _ =>
      rewrite get_ok in Hg by lia; inversion Hg; subst; clear Hg
    end.
    rewrite <- ?app_assoc; reflexivity.
  - intros -> ->.
    change (NdefTnfMediaType =? NdefTnfWellKnownType) with false in H.
    rewrite Z.eqb_refl in H.
    change (bytes_eqb (blit "text/vcard")
              (blit "application/vnd.bluetooth.ep.oob")) with false in H.
    change (bytes_eqb (blit "text/vcard") (blit "text/vcard")) with true in H.
    cbv iota in H. unfold parse_ndef_vcard in H. inv_ok.
    match goal with
    | Hg : Ndef.get _ _ _ = Ok _ |- _ =>
      rewrite get_ok in Hg by lia; inversion Hg; subst; clear Hg
    end.
    rewrite <- ?app_assoc; reflexivity.
  - intros -> ->.
    change (NdefTnfMediaType =? NdefTnfWellKnownType) with false in H.
    rewrite Z.eqb_refl in H.
    change (bytes_eqb (blit "application/vnd.wfa.wsc")
              (blit "application/vnd.bluetooth.ep.oob")) with false in H.
    change (bytes_eqb (blit "application/vnd.wfa.wsc") (blit "text/vcard"))
      with false in H.
    change (bytes_eqb (blit "application/vnd.wfa.wsc")
              (blit "application/vnd.wfa.wsc")) with true in H.
    cbv iota in H. unfold parse_ndef_wifi in H. inv_ok.
    match goal with
    | Hg : Ndef.get _ _ _ = Ok _ |- _ =>
      rewrite get_ok in Hg by lia; inversion Hg; subst; clear Hg
    end.
    rewrite <- ?app_assoc; reflexivity.
  - intros -> HB HV HW.
    change (NdefTnfMediaType =? NdefTnfWellKnownType) with false in H.
    rewrite Z.eqb_refl in H.
    rewrite (bytes_eqb_neq _ _ HB), (bytes_eqb_neq _ _ HV),
      (bytes_eqb_neq _ _ HW) in H.
    apply dump_label_ok in H; [exact H|lia|lia|discriminate].
  - intros H1 H2.
    rewrite (proj2 (Z.eqb_neq _ _) H1), (proj2 (Z.eqb_neq _ _) H2) in H.
    apply dump_label_ok in H; [exact H|lia|lia|discriminate].
Qed.

Lemma decoded_payload_appends_a_block_witness :
  exists code,
    nth_error scenario_uri (Z.to_nat 6) = Some code /\
    lit "URI" ++ nl ++ lit "http://www.nfc.re" ++ nl
    = [] ++ lit "URI" ++ nl
         ++ lit (dict_get ndef_uri_prepends (byte_val code) "")
         ++ decode_utf8 (sub scenario_uri (6 + 1) (7 - 1)) ++ nl.
Proof.
  apply (proj1 (proj2 (decoded_payload_appends_a_block scenario_uri
                         NdefTnfWellKnownType (blit "U") 6 7 []
                         (lit "URI" ++ nl ++ lit "http://www.nfc.re" ++ nl)
                         ltac:(lia) ltac:(lia) ltac:(vm_compute; reflexivity)))).
  - reflexivity.
  - reflexivity.
Defined.

(** ** The TLV length field *)

Lemma sub3_inv (data : bytes) (pos : Z) (a b c : byte) :
  0 <= pos -> sub data pos 3 = [a; b; c] ->
  nth_error data (Z.to_nat pos) = Some a /\
  sub data (pos + 1) 2 = [b; c] /\
  pos + 3 <= len data.
Proof.
  intros Hp H. unfold sub in *. change (Z.to_nat 3) with 3%nat in H.
  change (Z.to_nat 2) with 2%nat.
  destruct (skipn (Z.to_nat pos) data) as [|a' [|b' [|c' r]]] eqn:E;
    simpl in H; try discriminate H.
  inversion H; subst. repeat split.
  - rewrite <- (Nat.add_0_r (Z.to_nat pos)), <- nth_error_skipn, E.
    reflexivity.
  - replace (Z.to_nat (pos + 1)) with (1 + Z.to_nat pos)%nat by lia.
    rewrite <- skipn_skipn, E. reflexivity.
  - pose proof (length_skipn (Z.to_nat pos) data) as Hs. rewrite E in Hs.
    simpl in Hs. unfold len. lia.
Qed.

(** X19. The TLV length field at a non-negative position [pos].  A first
    byte below 0xFF is the length, and the value starts at [pos + 1].  A
    first byte 0xFF is followed by the length in two bytes, most significant
    first, and the value starts at [pos + 3]; lengths below 0xFF are
    accepted in this form too.  When there is no byte at [pos], or the first
    byte is 0xFF and fewer than two bytes follow, the out-of-bounds error is
    raised.  In every case the accumulator is untouched, a decoded length is
    at most 0xFFFF and the start of the value is within the buffer, and no
    other error is raised. *)
Theorem tlv_length_field (data : bytes) (pos : Z) (out : str) :
  0 <= pos ->
  (forall b,
      nth_error data (Z.to_nat pos) = Some b -> byte_val b < 0xFF ->
      tlv_length data pos out = (Ok (byte_val b, pos + 1), out)) /\
  (forall hi lo,
      sub data pos 3 = [xff; hi; lo] ->
      tlv_length data pos out
      = (Ok (256 * byte_val hi + byte_val lo, pos + 3), out)) /\
  (len data <= pos \/
   (nth_error data (Z.to_nat pos) = Some xff /\ len data < pos + 3) ->
   tlv_length data pos out = (Raise Ndef.OutOfBounds, out)) /\
  (forall L vp o,
      tlv_length data pos out = (Ok (L, vp), o) ->
      o = out /\ vp <= len data /\
      ((vp = pos + 1 /\ 0 <= L < 0xFF) \/
       (vp = pos + 3 /\ 0 <= L <= 0xFFFF))) /\
  (forall e o,
      tlv_length data pos out = (Raise e, o) ->
      e = Ndef.OutOfBounds /\ o = out).
Proof.
  intros Hp. repeat apply conj.
  - intros b Hn Hb. unfold tlv_length.
    rewrite (bind_eq _ _ _ (byte_val b) out) by (now apply get_byte_nth).
    destruct (Z.ltb_spec (byte_val b) 255); [reflexivity|lia].
  - intros hi lo Hs. apply sub3_inv in Hs as (Hn & Hs & Hb); [|exact Hp].
    unfold tlv_length.
    rewrite (bind_eq _ _ _ (byte_val xff) out) by (now apply get_byte_nth).
    change (byte_val xff <? 255) with false. cbv iota.
    unfold bind, liftR. rewrite get_ok by lia. rewrite Hs.
    unfold ret, from_bytes_big. simpl fold_left.
    do 3 f_equal; lia.
  - intros [Hb | [Hn Hb]]; unfold tlv_length.
    + unfold bind, get_byte, liftR. now rewrite get_raise by lia.
    + rewrite (bind_eq _ _ _ (byte_val xff) out) by (now apply get_byte_nth).
      change (byte_val xff <? 255) with false. cbv iota.
      unfold bind, liftR. now rewrite get_raise by lia.
  - intros L vp o H.
    pose proof (tlv_length_ok _ _ _ _ _ _ H) as (Ho & HL & Hvp).
    split; [exact Ho|]. split; [lia|].
    unfold tlv_length in H. inv_ok.
    + left. split; [lia|].
      match goal with
      | Hb : (_ <? 255) = true |- _ => apply Z.ltb_lt in Hb
      end. lia.
    + right. split; [lia|].
      match goal with
      | Hg : Ndef.get _ _ _ = Ok ?v |- _ =>
        pose proof (get_inv _ _ _ _ Hg) as Hb;
          rewrite get_ok in Hg by lia; inversion Hg as [Hv]; clear Hg;
          pose proof (len_sub data (pos + 1) 2 ltac:(lia) ltac:(lia) Hb)
            as Hlen
      end.
      destruct (sub data (pos + 1) 2) as [|a [|b [|c v]]] eqn:Es;
        try (rewrite ?len_cons in Hlen;
             change (len (@nil byte)) with 0 in Hlen;
             try pose proof (len_nonneg v); lia).
      subst.
      pose proof (byte_val_range a). pose proof (byte_val_range b).
      unfold from_bytes_big. simpl fold_left. lia.
  - intros e o H. now apply tlv_length_raise in H.
Qed.

Lemma tlv_length_field_witness :
  tlv_length [x03; xff; x01; x0b] 1 []
  = (Ok (256 * byte_val x01 + byte_val x0b, 1 + 3), []).
Proof.
  apply (proj1 (proj2 (tlv_length_field [x03; xff; x01; x0b] 1 []
                         ltac:(lia))) x01 x0b).
  reflexivity.
Defined.
